(** * AutoDiff: the differentiable variable, its tape record and the
      hyperbolic expression nodes

    A shallow embedding of [AutoDiff/Variable.hpp], [AutoDiff/Sinh.hpp] and
    [AutoDiff/Cosh.hpp].

    - [REAL_T] is read as the field of real numbers [R]; [std::sinh],
      [std::cosh], [std::sin], [std::asin] are the functions of the same name
      of the Standard Library's [Reals].  NaN and rounding are outside the
      model.  Overflow is modelled where it decides a branch for finite
      arguments: the sum [min_boundary + max_boundary] of [SetBounds], which
      is an infinity once its magnitude reaches [overflow_threshold].
    - [VariableInfo] objects live on a heap addressed by pointers; a
      [Variable] holds such a pointer, so that handles sharing one info and
      tape entries referring to it see the same object.
    - An expression template is a record of closures over the heap, one field
      per member function of the node contract.
    - [exit] is an outcome of its own: the caller gets nothing back. *)

From Stdlib Require Import Reals Lra Lia ZArith NArith String Ascii.
From stdpp Require Import gmap list.

(** ** Parameter transformations *)

(** [std::atanh], the inverse of the hyperbolic tangent on (-1, 1). *)
Definition atanh (x : R) : R := (/ 2 * ln ((1 + x) / (1 - x)))%R.

(** The abstract class [ParameterTransformation<REAL_T>]: three virtual
    members taking [(val, min_, max_)]. *)
Record ParameterTransformation := {
  External2Internal : R -> R -> R -> R;
  Internal2External : R -> R -> R -> R;
  DerivativeInternal2External : R -> R -> R -> R
}.

(** [std::pow(b, 2.0)] is the square of [b]. *)
Definition TanhParameterTransformation : ParameterTransformation := {|
  External2Internal val min_ max_ :=
    (min_ + /2 * (max_ - min_) * (1 + tanh val))%R;
  Internal2External val min_ max_ :=
    atanh (2 * (val - min_) / (max_ - min_) - 1)%R;
  DerivativeInternal2External val min_ max_ :=
    (2 / ((max_ - min_) * (1 - ((2 * (val - min_)) / max_ - min_ - 1)) ^ 2))%R
|}.

Definition SinParameterTransformation : ParameterTransformation := {|
  External2Internal val min_ max_ :=
    asin ((2 * val) / (max_ - min_) - min_ / (max_ - min_) - max_ / (max_ - min_))%R;
  Internal2External val min_ max_ :=
    (min_ + /2 * (max_ - min_) * (sin val + 1))%R;
  DerivativeInternal2External val min_ max_ :=
    (/2 * ((max_ - min_) * cos val))%R
|}.

(** ** Leaf records and the heap *)

(** Modelled from the spec: [IDSet], whose header is not part of the sources
    at hand.  An ordered, deduplicating collection; iteration follows the
    insertion order. *)
Definition IDSet_insert (p : positive) (s : list positive) : list positive :=
  if decide (p ∈ s) then s else s ++ [p].

(** Modelled from the spec: the fields of [VariableInfo] that [Variable.hpp]
    reads and writes ([id] is a [uint32_t], only ever compared). *)
Record VariableInfo := {
  id : N;
  vvalue : R;
  dvalue : R;
  is_dependent : Z;
  is_nl : bool;
  has_nl_interaction : bool;
  dependence_level : Z;
  push_start : nat;
  dependencies : list positive
}.

#[global] Instance VariableInfo_inhabited : Inhabited VariableInfo :=
  populate {| id := 0; vvalue := 0; dvalue := 0; is_dependent := 0;
              is_nl := false; has_nl_interaction := false;
              dependence_level := 0; push_start := 0; dependencies := [] |}.

Definition set_vvalue (x : R) (i : VariableInfo) : VariableInfo :=
  {| id := id i; vvalue := x; dvalue := dvalue i;
     is_dependent := is_dependent i; is_nl := is_nl i;
     has_nl_interaction := has_nl_interaction i;
     dependence_level := dependence_level i; push_start := push_start i;
     dependencies := dependencies i |}.

Definition set_is_dependent (x : Z) (i : VariableInfo) : VariableInfo :=
  {| id := id i; vvalue := vvalue i; dvalue := dvalue i;
     is_dependent := x; is_nl := is_nl i;
     has_nl_interaction := has_nl_interaction i;
     dependence_level := dependence_level i; push_start := push_start i;
     dependencies := dependencies i |}.

Definition set_is_nl (x : bool) (i : VariableInfo) : VariableInfo :=
  {| id := id i; vvalue := vvalue i; dvalue := dvalue i;
     is_dependent := is_dependent i; is_nl := x;
     has_nl_interaction := has_nl_interaction i;
     dependence_level := dependence_level i; push_start := push_start i;
     dependencies := dependencies i |}.

Definition set_has_nl_interaction (x : bool) (i : VariableInfo) : VariableInfo :=
  {| id := id i; vvalue := vvalue i; dvalue := dvalue i;
     is_dependent := is_dependent i; is_nl := is_nl i;
     has_nl_interaction := x;
     dependence_level := dependence_level i; push_start := push_start i;
     dependencies := dependencies i |}.

Definition set_dependence_level (x : Z) (i : VariableInfo) : VariableInfo :=
  {| id := id i; vvalue := vvalue i; dvalue := dvalue i;
     is_dependent := is_dependent i; is_nl := is_nl i;
     has_nl_interaction := has_nl_interaction i;
     dependence_level := x; push_start := push_start i;
     dependencies := dependencies i |}.

Definition set_push_start (x : nat) (i : VariableInfo) : VariableInfo :=
  {| id := id i; vvalue := vvalue i; dvalue := dvalue i;
     is_dependent := is_dependent i; is_nl := is_nl i;
     has_nl_interaction := has_nl_interaction i;
     dependence_level := dependence_level i; push_start := x;
     dependencies := dependencies i |}.

Definition set_dependencies (x : list positive) (i : VariableInfo) : VariableInfo :=
  {| id := id i; vvalue := vvalue i; dvalue := dvalue i;
     is_dependent := is_dependent i; is_nl := is_nl i;
     has_nl_interaction := has_nl_interaction i;
     dependence_level := dependence_level i; push_start := push_start i;
     dependencies := x |}.

(** The heap of [VariableInfo] objects; a pointer is a [positive]. *)
Abbreviation Heap := (gmap positive VariableInfo).

(** [p->field = ...]: the object behind [p] is replaced by its update. *)
Definition update_info (p : positive) (f : VariableInfo -> VariableInfo)
    (h : Heap) : Heap :=
  <[p := f (h !!! p)]> h.

(** ** The expression node contract *)

(** The member functions of [ExpressionBase] that the assignment calls.  The
    three overloads of [EvaluateDerivative] get one field each. *)
Record Expression := {
  GetValue : Heap -> R;
  PushIds : list positive -> list positive;
  IsNonlinear : Heap -> bool;
  MakeNLInteractions : bool -> Heap -> Heap;
  EvaluateDerivative : Heap -> N -> R;
  EvaluateDerivative2 : Heap -> N -> N -> R;
  EvaluateDerivative3 : Heap -> N -> N -> N -> R
}.

(** [atl::Sinh<REAL_T, EXPR>], holding [expr_m]. *)
Definition Sinh (expr_m : Expression) : Expression := {|
  GetValue h := sinh (GetValue expr_m h);
  PushIds ids := PushIds expr_m ids;
  IsNonlinear _ := true;
  MakeNLInteractions _ h := h;
  EvaluateDerivative h a :=
    (EvaluateDerivative expr_m h a * cosh (GetValue expr_m h))%R;
  EvaluateDerivative2 h a b :=
    ((sinh (GetValue expr_m h) * EvaluateDerivative expr_m h a
        * EvaluateDerivative expr_m h b)
     + (cosh (GetValue expr_m h) * EvaluateDerivative2 expr_m h a b))%R;
  EvaluateDerivative3 h x y z :=
    (cosh (GetValue expr_m h) * (EvaluateDerivative expr_m h x)
       * (EvaluateDerivative expr_m h y) * (EvaluateDerivative expr_m h z)
     + sinh (GetValue expr_m h) * (EvaluateDerivative2 expr_m h x y)
       * (EvaluateDerivative expr_m h z)
     + sinh (GetValue expr_m h) * (EvaluateDerivative expr_m h x)
       * (EvaluateDerivative2 expr_m h y z)
     + sinh (GetValue expr_m h) * (EvaluateDerivative2 expr_m h x z)
       * (EvaluateDerivative expr_m h y)
     + cosh (GetValue expr_m h) * (EvaluateDerivative3 expr_m h x y z))%R
|}.

(** [atl::Cosh<REAL_T, EXPR>], holding [expr_m] and [value_m]; [GetValue]
    uses the stored [value_m], the derivatives re-read [expr_m]. *)
Definition Cosh (expr_m : Expression) (value_m : R) : Expression := {|
  GetValue _ := cosh value_m;
  PushIds ids := PushIds expr_m ids;
  IsNonlinear _ := true;
  MakeNLInteractions _ h := h;
  EvaluateDerivative h a :=
    (EvaluateDerivative expr_m h a * sinh (GetValue expr_m h))%R;
  EvaluateDerivative2 h a b :=
    ((cosh (GetValue expr_m h) * EvaluateDerivative expr_m h a
        * EvaluateDerivative expr_m h b)
     + (sinh (GetValue expr_m h) * EvaluateDerivative2 expr_m h a b))%R;
  EvaluateDerivative3 h x y z :=
    (sinh (GetValue expr_m h) * (EvaluateDerivative expr_m h x)
       * (EvaluateDerivative expr_m h y) * (EvaluateDerivative expr_m h z)
     + cosh (GetValue expr_m h) * (EvaluateDerivative2 expr_m h x y)
       * (EvaluateDerivative expr_m h z)
     + cosh (GetValue expr_m h) * (EvaluateDerivative expr_m h x)
       * (EvaluateDerivative2 expr_m h y z)
     + cosh (GetValue expr_m h) * (EvaluateDerivative2 expr_m h x z)
       * (EvaluateDerivative expr_m h y)
     + sinh (GetValue expr_m h) * (EvaluateDerivative3 expr_m h x y z))%R
|}.

(** The constructor [Cosh(expr)]: [value_m(expr.GetValue())]. *)
Definition Cosh_new (h : Heap) (expr : Expression) : Expression :=
  Cosh expr (GetValue expr h).

(** Modelled from the spec: [atl::Add], the binary sum node of [Add.hpp]
    (included by [Variable.hpp], absent from the sources at hand): the
    chain-rule expansion for two children, leaves of the left child first. *)
Definition Add (lhs_m rhs_m : Expression) : Expression := {|
  GetValue h := (GetValue lhs_m h + GetValue rhs_m h)%R;
  PushIds ids := PushIds rhs_m (PushIds lhs_m ids);
  IsNonlinear h := IsNonlinear lhs_m h || IsNonlinear rhs_m h;
  MakeNLInteractions b h := MakeNLInteractions rhs_m b (MakeNLInteractions lhs_m b h);
  EvaluateDerivative h a :=
    (EvaluateDerivative lhs_m h a + EvaluateDerivative rhs_m h a)%R;
  EvaluateDerivative2 h a b :=
    (EvaluateDerivative2 lhs_m h a b + EvaluateDerivative2 rhs_m h a b)%R;
  EvaluateDerivative3 h x y z :=
    (EvaluateDerivative3 lhs_m h x y z + EvaluateDerivative3 rhs_m h x y z)%R
|}.

(** ** The differentiable variable *)

(** Comparisons of [REAL_T] values used as conditions. *)
#[global] Instance Rlt_decision (x y : R) : Decision (x < y)%R := Rlt_dec x y.
#[global] Instance Rgt_decision (x y : R) : Decision (x > y)%R := Rgt_dec x y.
#[global] Instance Req_decision : EqDecision R := Req_dec_T.

(** [atl::Variable<REAL_T, group>]: the data members ([Variable] alone is a
    reserved word here).  [info] points into the heap. *)
Record Variable_ := {
  info : positive;
  min_boundary_m : R;
  max_boundary_m : R;
  bounded_m : bool;
  transformation : ParameterTransformation
}.

Definition set_bounded_m (b : bool) (v : Variable_) : Variable_ :=
  {| info := info v; min_boundary_m := min_boundary_m v;
     max_boundary_m := max_boundary_m v; bounded_m := b;
     transformation := transformation v |}.

Definition SetMinBoundary (min_boundary : R) (v : Variable_) : Variable_ :=
  {| info := info v; min_boundary_m := min_boundary;
     max_boundary_m := max_boundary_m v; bounded_m := bounded_m v;
     transformation := transformation v |}.

Definition SetMaxBoundary (max_boundary : R) (v : Variable_) : Variable_ :=
  {| info := info v; min_boundary_m := min_boundary_m v;
     max_boundary_m := max_boundary; bounded_m := bounded_m v;
     transformation := transformation v |}.

Definition GetMinBoundary (v : Variable_) : R := min_boundary_m v.
Definition GetMaxBoundary (v : Variable_) : R := max_boundary_m v.

(** A [Variable] is itself an expression node (the leaf). *)
Definition VariableNode (v : Variable_) : Expression := {|
  GetValue h := vvalue (h !!! info v);
  PushIds ids := IDSet_insert (info v) ids;
  IsNonlinear h := is_nl (h !!! info v);
  MakeNLInteractions b h := update_info (info v) (set_has_nl_interaction b) h;
  EvaluateDerivative h a := if (id (h !!! info v) =? a)%N then 1%R else 0%R;
  EvaluateDerivative2 _ _ _ := 0%R;
  EvaluateDerivative3 _ _ _ _ := 0%R
|}.

(** [Variable::SetValue].  The first test, [value != value], singles out
    NaN; no real number passes it. *)
Definition SetValue (v : Variable_) (value : R) (h : Heap) : Heap :=
  if negb (bounded_m v) then update_info (info v) (set_vvalue value) h
  else if decide (value <> value) then
    update_info (info v)
      (set_vvalue (min_boundary_m v + (max_boundary_m v - min_boundary_m v) / 2)%R) h
  else if decide (value < min_boundary_m v)%R then
    update_info (info v) (set_vvalue (min_boundary_m v)) h
  else if decide (value > max_boundary_m v)%R then
    update_info (info v) (set_vvalue (max_boundary_m v)) h
  else update_info (info v) (set_vvalue value) h.

(** What an arithmetic expression on finite [double]s evaluates to: a real,
    or an infinity when the exact result is out of range. *)
Inductive double :=
  | finite (r : R)
  | pos_infinity
  | neg_infinity.

(** The least magnitude that rounds to an infinity: half a unit in the last
    place above the largest finite [double], [2^1024 - 2^971]. *)
Definition overflow_threshold : R := IZR (2 ^ 1024 - 2 ^ 970).

(** [a + b] on [double]s. *)
Definition double_add (a b : R) : double :=
  if decide (a + b < overflow_threshold)%R then
    if decide (- overflow_threshold < a + b)%R then finite (a + b)
    else neg_infinity
  else pos_infinity.

(** [x / 2.0]: half an infinity is that infinity. *)
Definition double_halve (x : double) : double :=
  match x with
  | finite r => finite (r / 2)
  | pos_infinity => pos_infinity
  | neg_infinity => neg_infinity
  end.

(** [Variable::SetValue] on a bounded variable, called with a value that may
    be an infinity.  An infinity is not NaN, so [value != value] fails; the
    positive one is not below [min_boundary_m] and is above [max_boundary_m],
    the negative one is below [min_boundary_m].  (On an unbounded variable
    the infinity itself would be stored; the one caller, [SetBounds], has set
    [bounded_m] before.) *)
Definition SetValue_double (v : Variable_) (value : double) (h : Heap) : Heap :=
  match value with
  | finite r => SetValue v r h
  | pos_infinity => update_info (info v) (set_vvalue (max_boundary_m v)) h
  | neg_infinity => update_info (info v) (set_vvalue (min_boundary_m v)) h
  end.

(** [Variable::SetBounds]: the handle and the heap after the call.  The
    argument of [SetValue] is [(min_boundary + max_boundary) / 2.0], whose sum
    may overflow. *)
Definition SetBounds (min_boundary max_boundary : R) (v : Variable_) (h : Heap)
    : Variable_ * Heap :=
  let v := set_bounded_m true v in
  let v := SetMinBoundary min_boundary v in
  let v := SetMaxBoundary max_boundary v in
  if bool_decide (GetValue (VariableNode v) h < GetMinBoundary v)%R
     || bool_decide (GetValue (VariableNode v) h > GetMaxBoundary v)%R
     || bool_decide (GetValue (VariableNode v) h = 0%R)
  then (v, SetValue_double v
             (double_halve (double_add min_boundary max_boundary)) h)
  else (v, h).

(** ** Tape records *)

Module StackEntry.
(** Modelled from the spec: the members of [StackEntry] that the assignment
    touches.  [w] is a pointer, null until assigned; [exp] is the owned
    dynamic clone of an expression, kept here as the node itself. *)
Record t := {
  w : option positive;
  ids : list positive;
  first : list R;
  second : list R;
  third : list R;
  second_mixed : list R;
  third_mixed : list R;
  exp : option Expression
}.

Definition empty : t :=
  {| w := None; ids := []; first := []; second := []; third := [];
     second_mixed := []; third_mixed := []; exp := None |}.

Definition set_w (x : option positive) (e : t) : t :=
  {| w := x; ids := ids e; first := first e; second := second e;
     third := third e; second_mixed := second_mixed e;
     third_mixed := third_mixed e; exp := exp e |}.

Definition set_ids (x : list positive) (e : t) : t :=
  {| w := w e; ids := x; first := first e; second := second e;
     third := third e; second_mixed := second_mixed e;
     third_mixed := third_mixed e; exp := exp e |}.

Definition set_first (x : list R) (e : t) : t :=
  {| w := w e; ids := ids e; first := x; second := second e;
     third := third e; second_mixed := second_mixed e;
     third_mixed := third_mixed e; exp := exp e |}.

Definition set_second_mixed (x : list R) (e : t) : t :=
  {| w := w e; ids := ids e; first := first e; second := second e;
     third := third e; second_mixed := x;
     third_mixed := third_mixed e; exp := exp e |}.

Definition set_third_mixed (x : list R) (e : t) : t :=
  {| w := w e; ids := ids e; first := first e; second := second e;
     third := third e; second_mixed := second_mixed e;
     third_mixed := x; exp := exp e |}.

Definition set_exp (x : option Expression) (e : t) : t :=
  {| w := w e; ids := ids e; first := first e; second := second e;
     third := third e; second_mixed := second_mixed e;
     third_mixed := third_mixed e; exp := x |}.

#[global] Instance inhabited : Inhabited t := populate empty.
End StackEntry.

(** Modelled from the spec: the enumeration [DerivativeTraceLevel], declared
    with the tape.  [UNKNOWN_LEVEL] stands for any value of the underlying
    integer that is none of the enumerators. *)
Inductive DerivativeTraceLevel :=
  | FIRST_ORDER
  | SECOND_ORDER
  | THIRD_ORDER
  | SECOND_ORDER_MIXED_PARTIALS
  | THIRD_ORDER_MIXED_PARTIALS
  | GRADIENT
  | GRADIENT_AND_HESSIAN
  | DYNAMIC_RECORD
  | UNKNOWN_LEVEL (raw : Z).

(** Modelled from the spec: [GradientStructure], the tape, whose header is
    not part of the sources at hand.  [gradient_stack] is the storage of
    records, [stack_current] the cursor: the records on the tape are the
    slots below the cursor. *)
Record GradientStructure := {
  recording : bool;
  derivative_trace_level : DerivativeTraceLevel;
  gradient_stack : list StackEntry.t;
  stack_current : nat;
  min_id : N;
  max_id : N
}.

Definition set_gradient_stack (x : list StackEntry.t) (g : GradientStructure)
    : GradientStructure :=
  {| recording := recording g;
     derivative_trace_level := derivative_trace_level g;
     gradient_stack := x; stack_current := stack_current g;
     min_id := min_id g; max_id := max_id g |}.

Definition set_stack_current (x : nat) (g : GradientStructure)
    : GradientStructure :=
  {| recording := recording g;
     derivative_trace_level := derivative_trace_level g;
     gradient_stack := gradient_stack g; stack_current := x;
     min_id := min_id g; max_id := max_id g |}.

Definition set_min_id (x : N) (g : GradientStructure) : GradientStructure :=
  {| recording := recording g;
     derivative_trace_level := derivative_trace_level g;
     gradient_stack := gradient_stack g; stack_current := stack_current g;
     min_id := x; max_id := max_id g |}.

Definition set_max_id (x : N) (g : GradientStructure) : GradientStructure :=
  {| recording := recording g;
     derivative_trace_level := derivative_trace_level g;
     gradient_stack := gradient_stack g; stack_current := stack_current g;
     min_id := min_id g; max_id := x |}.

Definition set_trace_level (x : DerivativeTraceLevel) (g : GradientStructure)
    : GradientStructure :=
  {| recording := recording g; derivative_trace_level := x;
     gradient_stack := gradient_stack g; stack_current := stack_current g;
     min_id := min_id g; max_id := max_id g |}.

(** Modelled from the spec: [GradientStructure::NextIndex], the monotonic
    cursor returning the next free tape slot.  The slot it returns exists:
    the storage grows by empty records when the cursor has reached its end. *)
Definition NextIndex (g : GradientStructure) : nat * GradientStructure :=
  let index := stack_current g in
  let storage :=
    gradient_stack g
      ++ replicate (S index - length (gradient_stack g)) StackEntry.empty in
  (index, set_stack_current (S index) (set_gradient_stack storage g)).

(** The records on the tape: the slots below the cursor. *)
Definition tape (g : GradientStructure) : list StackEntry.t :=
  take (stack_current g) (gradient_stack g).

(** ** Record-and-assign *)

(** How a call ends: it returns with the heap and the tape it leaves, or the
    process ends in [exit(status)] with what has been written to [std::cout]
    (the heap and the tape are those at that moment). *)
Inductive Outcome :=
  | Returned (h : Heap) (g : GradientStructure)
  | Exited (status : Z) (cout : string) (h : Heap) (g : GradientStructure).

Definition outcome_heap (o : Outcome) : Heap :=
  match o with Returned h _ => h | Exited _ _ h _ => h end.

Definition outcome_tape (o : Outcome) : GradientStructure :=
  match o with Returned _ g => g | Exited _ _ _ g => g end.

Definition dquote : string := String (ascii_of_nat 34) EmptyString.
Definition newline : string := String (ascii_of_nat 10) EmptyString.

(** The text sent to [std::cout] before [exit(0)]. *)
Definition SECOND_ORDER_message : string :=
  (dquote ++ "SECOND_ORDER" ++ dquote ++ " not yet available!" ++ newline)%string.
Definition THIRD_ORDER_message : string :=
  (dquote ++ "THIRD_ORDER" ++ dquote ++ " not yet available!" ++ newline)%string.
Definition unknown_level_message : string :=
  "Unkown derivative trace level."%string.

(** [entry] is a reference to [gs.gradient_stack[index]]: what is done to it
    is done to the slot.  The loops below work on the record and
    [store_entry] puts it back. *)
Definition store_entry (index : nat) (entry : StackEntry.t)
    (g : GradientStructure) : GradientStructure :=
  set_gradient_stack (<[index := entry]> (gradient_stack g)) g.

(** Loop of [case FIRST_ORDER], one iteration at [it], on [(gs, entry, i)]. *)
Definition FIRST_ORDER_step (exp : Expression) (h : Heap)
    (st : GradientStructure * StackEntry.t * nat) (it : positive)
    : GradientStructure * StackEntry.t * nat :=
  let '(gs, entry, i) := st in
  let gs := if (max_id gs <? id (h !!! it))%N
            then set_max_id (id (h !!! it)) gs else gs in
  let gs := if (id (h !!! it) <? min_id gs)%N
            then set_min_id (id (h !!! it)) gs else gs in
  let dx := EvaluateDerivative exp h (id (h !!! it)) in
  (gs, StackEntry.set_first (<[i := dx]> (StackEntry.first entry)) entry, S i).

(** Loop of [case GRADIENT], on [(entry, i)]. *)
Definition GRADIENT_step (exp : Expression) (h : Heap)
    (st : StackEntry.t * nat) (it : positive) : StackEntry.t * nat :=
  let '(entry, i) := st in
  let dx := EvaluateDerivative exp h (id (h !!! it)) in
  (StackEntry.set_first (<[i := dx]> (StackEntry.first entry)) entry, S i).

(** [it->dependence_level++], for the element [it] of the iteration. *)
Definition incr_dependence_level (p : positive) (h : Heap) : Heap :=
  update_info p (fun x => set_dependence_level (dependence_level x + 1) x) h.

(** The head of the outer loop body shared by the two mixed-partials cases:
    [entry.w->dependencies.insert] of the element, the [push_start] mark and
    [it->dependence_level++], for the element [it] of the iteration. *)
Definition mark_independent (this_info : positive) (index : nat)
    (it : positive) (h : Heap) : Heap :=
  let h := update_info this_info
             (fun x => set_dependencies (IDSet_insert it (dependencies x)) x) h in
  let h := if has_nl_interaction (h !!! it) || is_nl (h !!! it)
           then update_info it (set_push_start index) h else h in
  incr_dependence_level it h.

(** Inner loop of [case SECOND_ORDER_MIXED_PARTIALS], on [(entry, j)]. *)
Definition SECOND_ORDER_MIXED_inner (exp : Expression) (h : Heap)
    (it : positive) (i : nat) (st : StackEntry.t * nat) (jt : positive)
    : StackEntry.t * nat :=
  let '(entry, j) := st in
  let dxx := EvaluateDerivative2 exp h (id (h !!! it)) (id (h !!! jt)) in
  let sm := <[i * length (StackEntry.first entry) + j := dxx]>
              (StackEntry.second_mixed entry) in
  let sm := if (0 <? i) && negb (i =? j)
            then <[j * length (StackEntry.first entry) + i := dxx]> sm
            else sm in
  (StackEntry.set_second_mixed sm entry, S j).

(** Outer loop of [case SECOND_ORDER_MIXED_PARTIALS], on [(h, entry, i)]. *)
Definition SECOND_ORDER_MIXED_step (exp : Expression) (this_info : positive)
    (index : nat) (st : Heap * StackEntry.t * nat) (it : positive)
    : Heap * StackEntry.t * nat :=
  let '(h, entry, i) := st in
  let h := mark_independent this_info index it h in
  let dx := EvaluateDerivative exp h (id (h !!! it)) in
  let entry := StackEntry.set_first (<[i := dx]> (StackEntry.first entry)) entry in
  let '(entry, _) :=
    fold_left (SECOND_ORDER_MIXED_inner exp h it i) (StackEntry.ids entry)
      (entry, 0) in
  (h, entry, S i).

(** Innermost loop of [case THIRD_ORDER_MIXED_PARTIALS], on [(entry, k)]. *)
Definition THIRD_ORDER_MIXED_innermost (exp : Expression) (h : Heap)
    (it jt : positive) (i j : nat) (st : StackEntry.t * nat) (kt : positive)
    : StackEntry.t * nat :=
  let '(entry, k) := st in
  let n := length (StackEntry.first entry) in
  let dxxx := EvaluateDerivative3 exp h (id (h !!! it)) (id (h !!! jt))
                (id (h !!! kt)) in
  (StackEntry.set_third_mixed
     (<[i * n * n + j * n + k := dxxx]> (StackEntry.third_mixed entry)) entry,
   S k).

(** Middle loop of [case THIRD_ORDER_MIXED_PARTIALS], on [(entry, j)]. *)
Definition THIRD_ORDER_MIXED_inner (exp : Expression) (h : Heap)
    (it : positive) (i : nat) (st : StackEntry.t * nat) (jt : positive)
    : StackEntry.t * nat :=
  let '(entry, j) := st in
  let dxx := EvaluateDerivative2 exp h (id (h !!! it)) (id (h !!! jt)) in
  let entry :=
    StackEntry.set_second_mixed
      (<[i * length (StackEntry.first entry) + j := dxx]>
         (StackEntry.second_mixed entry)) entry in
  let '(entry, _) :=
    fold_left (THIRD_ORDER_MIXED_innermost exp h it jt i j)
      (StackEntry.ids entry) (entry, 0) in
  (entry, S j).

(** Outer loop of [case THIRD_ORDER_MIXED_PARTIALS], on [(h, entry, i)]. *)
Definition THIRD_ORDER_MIXED_step (exp : Expression) (this_info : positive)
    (index : nat) (st : Heap * StackEntry.t * nat) (it : positive)
    : Heap * StackEntry.t * nat :=
  let '(h, entry, i) := st in
  let h := mark_independent this_info index it h in
  let dx := EvaluateDerivative exp h (id (h !!! it)) in
  let entry := StackEntry.set_first (<[i := dx]> (StackEntry.first entry)) entry in
  let '(entry, _) :=
    fold_left (THIRD_ORDER_MIXED_inner exp h it i) (StackEntry.ids entry)
      (entry, 0) in
  (h, entry, S i).

(** Inner loop of [case GRADIENT_AND_HESSIAN] over the remaining [jts], with
    its [break] once [j == i]. *)
Fixpoint GRADIENT_AND_HESSIAN_inner (exp : Expression) (h : Heap)
    (it : positive) (i : nat) (jts : list positive) (j : nat)
    (entry : StackEntry.t) : StackEntry.t :=
  match jts with
  | [] => entry
  | jt :: rest =>
      let dxx := EvaluateDerivative2 exp h (id (h !!! it)) (id (h !!! jt)) in
      let sm := <[i * length (StackEntry.first entry) + j := dxx]>
                  (StackEntry.second_mixed entry) in
      let sm := if (0 <? i) && negb (i =? j)
                then <[j * length (StackEntry.first entry) + i := dxx]> sm
                else sm in
      let entry := StackEntry.set_second_mixed sm entry in
      if j =? i then entry
      else GRADIENT_AND_HESSIAN_inner exp h it i rest (S j) entry
  end.

(** Outer loop of [case GRADIENT_AND_HESSIAN], on [(h, entry, i)]. *)
Definition GRADIENT_AND_HESSIAN_step (exp : Expression)
    (st : Heap * StackEntry.t * nat) (it : positive)
    : Heap * StackEntry.t * nat :=
  let '(h, entry, i) := st in
  let h := incr_dependence_level it h in
  let dx := EvaluateDerivative exp h (id (h !!! it)) in
  let entry := StackEntry.set_first (<[i := dx]> (StackEntry.first entry)) entry in
  (h, GRADIENT_AND_HESSIAN_inner exp h it i (StackEntry.ids entry) 0 entry, S i).

(** The body of [case GRADIENT_AND_HESSIAN] on the entry: the [resize] of
    [second_mixed], then the loops. *)
Definition GRADIENT_AND_HESSIAN_case (this : Variable_) (exp : Expression)
    (h : Heap) (entry : StackEntry.t) : Heap * StackEntry.t :=
  let entry := StackEntry.set_w (Some (info this)) entry in
  let n := length (StackEntry.ids entry) in
  let entry :=
    StackEntry.set_second_mixed
      (resize (n * n) 0%R (StackEntry.second_mixed entry)) entry in
  let '(h, entry, _) :=
    fold_left (GRADIENT_AND_HESSIAN_step exp) (StackEntry.ids entry)
      (h, entry, 0) in
  (h, entry).

(** [Variable::Assign_p(gs, exp)].  Loop counters and sizes are natural
    numbers.  The statement [this->info->is_dependent++] written between
    [switch (...) {] and the first [case] label is never reached by the
    jump to a label, and the statements following each [exit(0)] never run. *)
Definition Assign_p (this : Variable_) (exp : Expression) (h : Heap)
    (gs : GradientStructure) : Outcome :=
  if recording gs then
    let '(index, gs) := NextIndex gs in
    let entry := gradient_stack gs !!! index in
    let entry := StackEntry.set_ids (PushIds exp (StackEntry.ids entry)) entry in
    let entry :=
      StackEntry.set_first
        (resize (length (StackEntry.ids entry)) 0%R (StackEntry.first entry))
        entry in
    let n := length (StackEntry.ids entry) in
    match derivative_trace_level gs with
    | FIRST_ORDER =>
        let entry := StackEntry.set_w (Some (info this)) entry in
        let '(gs, entry, _) :=
          fold_left (FIRST_ORDER_step exp h) (StackEntry.ids entry)
            (gs, entry, 0) in
        Returned (SetValue this (GetValue exp h) h) (store_entry index entry gs)
    | SECOND_ORDER =>
        Exited 0 SECOND_ORDER_message h (store_entry index entry gs)
    | THIRD_ORDER =>
        Exited 0 THIRD_ORDER_message h (store_entry index entry gs)
    | SECOND_ORDER_MIXED_PARTIALS =>
        let entry := StackEntry.set_w (Some (info this)) entry in
        let h := update_info (info this) (set_is_dependent 1) h in
        let h := update_info (info this) (set_is_nl (IsNonlinear exp h)) h in
        let entry :=
          StackEntry.set_second_mixed
            (resize (n * n) 0%R (StackEntry.second_mixed entry)) entry in
        let h := MakeNLInteractions exp false h in
        let '(h, entry, _) :=
          fold_left (SECOND_ORDER_MIXED_step exp (info this) index)
            (StackEntry.ids entry) (h, entry, 0) in
        let h := incr_dependence_level (info this) h in
        Returned (SetValue this (GetValue exp h) h) (store_entry index entry gs)
    | THIRD_ORDER_MIXED_PARTIALS =>
        let entry := StackEntry.set_w (Some (info this)) entry in
        let h := update_info (info this) (set_is_dependent 1) h in
        let h := update_info (info this) (set_is_nl (IsNonlinear exp h)) h in
        let entry :=
          StackEntry.set_second_mixed
            (resize (n * n) 0%R (StackEntry.second_mixed entry)) entry in
        let entry :=
          StackEntry.set_third_mixed
            (resize (n * n * n) 0%R (StackEntry.third_mixed entry)) entry in
        let h := MakeNLInteractions exp false h in
        let '(h, entry, _) :=
          fold_left (THIRD_ORDER_MIXED_step exp (info this) index)
            (StackEntry.ids entry) (h, entry, 0) in
        Returned (SetValue this (GetValue exp h) h) (store_entry index entry gs)
    | GRADIENT =>
        let entry := StackEntry.set_w (Some (info this)) entry in
        let '(entry, _) :=
          fold_left (GRADIENT_step exp h) (StackEntry.ids entry) (entry, 0) in
        Returned (SetValue this (GetValue exp h) h) (store_entry index entry gs)
    | GRADIENT_AND_HESSIAN =>
        let '(h, entry) := GRADIENT_AND_HESSIAN_case this exp h entry in
        Returned (SetValue this (GetValue exp h) h) (store_entry index entry gs)
    | DYNAMIC_RECORD =>
        let entry := StackEntry.set_w (Some (info this)) entry in
        let h := fold_left (fun h it => incr_dependence_level it h)
                   (StackEntry.ids entry) h in
        let entry := StackEntry.set_exp (Some exp) entry in
        Returned (SetValue this (GetValue exp h) h) (store_entry index entry gs)
    | UNKNOWN_LEVEL _ =>
        Exited 0 unknown_level_message h (store_entry index entry gs)
    end
  else Returned (SetValue this (GetValue exp h) h) gs.

(** [operator=(const REAL_T&)]: the tape is not consulted. *)
Definition assign_scalar (this : Variable_) (value : R) (h : Heap)
    (gs : GradientStructure) : Outcome :=
  Returned (SetValue this value h) gs.

(** [operator=(const Variable&)]: the other handle is the expression; [gs] is
    the static tape of the variable's group. *)
Definition assign_variable (this other : Variable_) (h : Heap)
    (gs : GradientStructure) : Outcome :=
  Assign_p this (VariableNode other) h gs.

(** [operator=(const ExpressionBase<REAL_T, A>&)]; [gs] is the static tape
    [Variable<REAL_T>::gradient_structure_g]. *)
Definition assign_expression (this : Variable_) (exp : Expression) (h : Heap)
    (gs : GradientStructure) : Outcome :=
  Assign_p this exp h gs.

(** ** The chain rule, as the node contract words it *)

(** For a unary node [f(g)] with derivatives [f1], [f2], [f3] of [f]:
    the first, second and third partials in terms of those of [g]. *)
Definition chain_rule_1 (f1 : R -> R) (g : Expression) (h : Heap) (a : N) : R :=
  (f1 (GetValue g h) * EvaluateDerivative g h a)%R.

Definition chain_rule_2 (f1 f2 : R -> R) (g : Expression) (h : Heap)
    (a b : N) : R :=
  (f2 (GetValue g h) * EvaluateDerivative g h a * EvaluateDerivative g h b
   + f1 (GetValue g h) * EvaluateDerivative2 g h a b)%R.

Definition chain_rule_3 (f1 f2 f3 : R -> R) (g : Expression) (h : Heap)
    (a b c : N) : R :=
  (f3 (GetValue g h) * EvaluateDerivative g h a * EvaluateDerivative g h b
     * EvaluateDerivative g h c
   + f2 (GetValue g h)
     * (EvaluateDerivative2 g h a b * EvaluateDerivative g h c
        + EvaluateDerivative2 g h a c * EvaluateDerivative g h b
        + EvaluateDerivative2 g h b c * EvaluateDerivative g h a)
   + f1 (GetValue g h) * EvaluateDerivative3 g h a b c)%R.

(** The second and third partials of [g] do not depend on the order of the
    leaf ids. *)
Definition symmetric_derivatives (g : Expression) (h : Heap) : Prop :=
  (forall a b : N, EvaluateDerivative2 g h a b = EvaluateDerivative2 g h b a)
  /\ (forall a b c a' b' c' : N,
        [a; b; c] ≡ₚ [a'; b'; c'] ->
        EvaluateDerivative3 g h a b c = EvaluateDerivative3 g h a' b' c').

(** The slot the assignment works on, once the leaves of [exp] are pushed
    and [first] is resized: the state of [entry] at the [switch]. *)
Definition prepared_entry (exp : Expression) (gs : GradientStructure)
    : StackEntry.t :=
  let entry := gradient_stack (NextIndex gs).2 !!! (NextIndex gs).1 in
  let entry := StackEntry.set_ids (PushIds exp (StackEntry.ids entry)) entry in
  StackEntry.set_first
    (resize (length (StackEntry.ids entry)) 0%R (StackEntry.first entry)) entry.

(** The diagnostic of a trace level at which the assignment gives up. *)
Definition diagnostic (level : DerivativeTraceLevel) : option string :=
  match level with
  | SECOND_ORDER => Some SECOND_ORDER_message
  | THIRD_ORDER => Some THIRD_ORDER_message
  | UNKNOWN_LEVEL _ => Some unknown_level_message
  | _ => None
  end.

(** The enumerator's name, for the levels that have one to print. *)
Definition level_name (level : DerivativeTraceLevel) : option string :=
  match level with
  | SECOND_ORDER => Some "SECOND_ORDER"%string
  | THIRD_ORDER => Some "THIRD_ORDER"%string
  | _ => None
  end.

(** The heap in which row [i] of the Hessian loop evaluates: the one the
    loop started from, after [dependence_level++] on the leaves up to the
    [i]-th. *)
Definition row_heap (l : list positive) (h : Heap) (i : nat) : Heap :=
  fold_left (fun h it => incr_dependence_level it h) (take (S i) l) h.

(** Every cell of [after] above the diagonal of the [n] by [n] block holds
    what the cell held when the block was sized from [before]. *)
Definition upper_triangle_retained (n : nat) (before after : list R) : Prop :=
  forall i j : nat,
    i < j < n ->
    after !! (i * n + j) = resize (n * n) 0%R before !! (i * n + j).

(** The cursor has not run past the storage. *)
Definition cursor_in_storage (gs : GradientStructure) : Prop :=
  stack_current gs <= length (gradient_stack gs).

(** What [SetBounds] tests before it resets the value. *)
Definition needs_reset (x min_boundary max_boundary : R) : Prop :=
  (x < min_boundary \/ x > max_boundary \/ x = 0)%R.

(** The sum of the two bounds is a finite [double]. *)
Definition sum_in_range (min_boundary max_boundary : R) : Prop :=
  (- overflow_threshold < min_boundary + max_boundary < overflow_threshold)%R.

(** ** Sample states *)

(** An unbounded handle on the info at address [p]. *)
Definition handle (p : positive) : Variable_ :=
  {| info := p; min_boundary_m := 0; max_boundary_m := 0; bounded_m := false;
     transformation := SinParameterTransformation |}.

(** A leaf info with id [i] and value [x], not yet on any tape. *)
Definition leaf (i : N) (x : R) : VariableInfo :=
  {| id := i; vvalue := x; dvalue := 0; is_dependent := 0; is_nl := false;
     has_nl_interaction := false; dependence_level := 0; push_start := 0;
     dependencies := [] |}.

(** A recording tape at a given trace level with no record yet and an empty
    id range ([min_id] at the largest [uint32_t], [max_id] at the least). *)
Definition fresh_tape (level : DerivativeTraceLevel) : GradientStructure :=
  {| recording := true; derivative_trace_level := level;
     gradient_stack := []; stack_current := 0;
     min_id := 4294967295; max_id := 0 |}.

(** Two leaves: [v] at address 1 (id 1, value 0) and [u] at address 2 (id 2,
    value 3). *)
Definition two_leaves : Heap :=
  {[ 1%positive := leaf 1 0; 2%positive := leaf 2 3 ]}.

(** Three leaves: [v] at address 1, [x] at address 2 with value 1 and [y] at
    address 3 with value 0; ids equal to the addresses. *)
Definition three_leaves : Heap :=
  {[ 1%positive := leaf 1 0; 2%positive := leaf 2 1; 3%positive := leaf 3 0 ]}.

(** ** Further members *)

(** [M_E], the base of the natural logarithm. *)
Definition M_E : R := Rtrigo_def.exp 1.

(** [LogitParameterTransformation]; [::pow(b, 2.0)] is the square of [b]. *)
Definition LogitParameterTransformation : ParameterTransformation := {|
  External2Internal val min_ max_ :=
    (let p := (val - min_) / (max_ - min_) in ln (p / (1 - p)))%R;
  Internal2External val min_ max_ :=
    (let p := Rtrigo_def.exp val / (1 + Rtrigo_def.exp val) in
     p * (max_ - min_) + min_)%R;
  DerivativeInternal2External val min_ max_ :=
    ((Rtrigo_def.exp val * ln M_E * (max_ - min_)) / (Rtrigo_def.exp val + 1)
     - (Rtrigo_def.exp (2 * val) * ln M_E * (max_ - min_))
       / (Rtrigo_def.exp val + 1) ^ 2)%R
|}.

(** [Variable::GetInternalValue]. *)
Definition GetInternalValue (v : Variable_) (h : Heap) : R :=
  if bounded_m v then
    External2Internal (transformation v) (GetValue (VariableNode v) h)
      (GetMinBoundary v) (GetMaxBoundary v)
  else GetValue (VariableNode v) h.


(** [Variable::UpdateValue(REAL_T)]. *)
Definition UpdateValue (v : Variable_) (x : R) (h : Heap) : Heap :=
  if bounded_m v then
    SetValue v (Internal2External (transformation v) x
                  (GetMinBoundary v) (GetMaxBoundary v)) h
  else SetValue v x h.

(** [H] is a family of heaps indexed by a real, for instance the heaps that
    differ in the value of one leaf.  The three orders of [E] fit together
    along [H] at [x0] in the direction of the id [c]: the value has
    derivative [EvaluateDerivative(c)], each first partial [a] has derivative
    [EvaluateDerivative(a, c)], each second partial [(a, b)] has derivative
    [EvaluateDerivative(a, b, c)]. *)
Definition derivatives_along (E : Expression) (H : R -> Heap) (x0 : R)
    (c : N) : Prop :=
  derivable_pt_lim (fun x => GetValue E (H x)) x0
    (EvaluateDerivative E (H x0) c)
  /\ (forall a : N,
        derivable_pt_lim (fun x => EvaluateDerivative E (H x) a) x0
          (EvaluateDerivative2 E (H x0) a c))
  /\ (forall a b : N,
        derivable_pt_lim (fun x => EvaluateDerivative2 E (H x) a b) x0
          (EvaluateDerivative3 E (H x0) a b c)).

(** The heap [h] with the value of the leaf at [p] set to [x]. *)
Definition at_value (p : positive) (h : Heap) (x : R) : Heap :=
  update_info p (set_vvalue x) h.


(** The heap in which row [i] of the mixed-partials loops evaluates: the
    heap the loop started from, after the head of the loop body has run for
    the leaves up to the [i]-th. *)
Definition mixed_row_heap (this_info : positive) (index : nat)
    (l : list positive) (h : Heap) (i : nat) : Heap :=
  fold_left (fun h it => mark_independent this_info index it h)
    (take (S i) l) h.

(** The heap at the loop of the mixed-partials cases: [is_dependent] and
    [is_nl] of the target are written and [MakeNLInteractions] has run. *)
Definition mixed_start_heap (this : Variable_) (exp : Expression) (h : Heap)
    : Heap :=
  let h := update_info (info this) (set_is_dependent 1) h in
  let h := update_info (info this) (set_is_nl (IsNonlinear exp h)) h in
  MakeNLInteractions exp false h.

(** * Properties *)

(** ** Hyperbolic nodes *)

Lemma perm3_cases {A : Type} (a b c a' b' c' : A) :
  [a; b; c] ≡ₚ [a'; b'; c'] ->
  (a' = a /\ b' = b /\ c' = c) \/ (a' = a /\ b' = c /\ c' = b)
  \/ (a' = b /\ b' = a /\ c' = c) \/ (a' = b /\ b' = c /\ c' = a)
  \/ (a' = c /\ b' = a /\ c' = b) \/ (a' = c /\ b' = b /\ c' = a).
Proof.
  intros HP.
  assert (Hin : a' ∈ [a; b; c]) by (rewrite HP; left).
  apply elem_of_cons in Hin as [->|Hin].
  - apply Permutation_cons_inv in HP.
    apply Permutation_length_2_inv in HP as [HP|HP]; inversion HP; tauto.
  - apply elem_of_cons in Hin as [->|Hin].
    + assert (HP' : [a; c] ≡ₚ [b'; c']).
      { apply (Permutation_cons_inv (a := b)).
        rewrite <- HP. apply perm_swap. }
      apply Permutation_length_2_inv in HP' as [HP'|HP']; inversion HP'; tauto.
    + apply list_elem_of_singleton in Hin as ->.
      assert (HP' : [a; b] ≡ₚ [b'; c']).
      { apply (Permutation_cons_inv (a := c)).
        rewrite <- HP.
        etrans; [apply perm_swap | apply perm_skip, perm_swap]. }
      apply Permutation_length_2_inv in HP' as [HP'|HP']; inversion HP'; tauto.
Qed.

(** C4: for [Sinh] and [Cosh] over an inner expression [g], the three
    [EvaluateDerivative] overloads are the chain-rule expansions of the node
    contract, with (f', f'', f''') = (cosh, sinh, cosh) for [Sinh] and
    (sinh, cosh, sinh) for [Cosh], taken at the current value of [g]. *)
Theorem hyperbolic_chain_rule (g : Expression) (value_m : R) (h : Heap)
    (a b c : N) :
  (EvaluateDerivative (Sinh g) h a = chain_rule_1 cosh g h a
   /\ EvaluateDerivative2 (Sinh g) h a b = chain_rule_2 cosh sinh g h a b
   /\ EvaluateDerivative3 (Sinh g) h a b c
      = chain_rule_3 cosh sinh cosh g h a b c)
  /\ (EvaluateDerivative (Cosh g value_m) h a = chain_rule_1 sinh g h a
      /\ EvaluateDerivative2 (Cosh g value_m) h a b
         = chain_rule_2 sinh cosh g h a b
      /\ EvaluateDerivative3 (Cosh g value_m) h a b c
         = chain_rule_3 sinh cosh sinh g h a b c).
Proof.
  unfold chain_rule_1, chain_rule_2, chain_rule_3; cbn.
  repeat split; ring.
Qed.

(** C7: when the second and third partials of the inner expression are
    symmetric in the leaf ids, the third partial of a [Sinh] or [Cosh] node
    is the same at [(a, b, c)] and at any permutation of it. *)
Theorem hyperbolic_third_symmetric (g : Expression) (value_m : R) (h : Heap)
    (a b c a' b' c' : N) :
  symmetric_derivatives g h ->
  [a; b; c] ≡ₚ [a'; b'; c'] ->
  EvaluateDerivative3 (Sinh g) h a b c = EvaluateDerivative3 (Sinh g) h a' b' c'
  /\ EvaluateDerivative3 (Cosh g value_m) h a b c
     = EvaluateDerivative3 (Cosh g value_m) h a' b' c'.
Proof.
  intros [H2 H3] HP. cbn.
  rewrite (H3 _ _ _ _ _ _ HP).
  apply perm3_cases in HP.
  destruct HP as [(-> & -> & ->)|[(-> & -> & ->)|[(-> & -> & ->)|
                 [(-> & -> & ->)|[(-> & -> & ->)|(-> & -> & ->)]]]]];
    split;
    rewrite ?(H2 b a), ?(H2 c a), ?(H2 c b); ring.
Qed.

Lemma VariableNode_symmetric (v : Variable_) (h : Heap) :
  symmetric_derivatives (VariableNode v) h.
Proof. split; reflexivity. Qed.

Lemma hyperbolic_third_symmetric_witness :
  EvaluateDerivative3
    (Sinh (VariableNode {| info := 1; min_boundary_m := 0; max_boundary_m := 1;
                           bounded_m := false;
                           transformation := SinParameterTransformation |}))
    ∅ 1 2 3
  = EvaluateDerivative3
      (Sinh (VariableNode {| info := 1; min_boundary_m := 0; max_boundary_m := 1;
                             bounded_m := false;
                             transformation := SinParameterTransformation |}))
      ∅ 3 1 2.
Proof.
  refine (proj1 (hyperbolic_third_symmetric _ 0 ∅ 1 2 3 3 1 2
                   (VariableNode_symmetric _ _) _)).
  symmetry. etrans; [apply perm_swap | apply perm_skip, perm_swap].
Defined.

(** ** Parameter transformations *)

(** C8: for [min < v < max] the sine transformation maps the internal image of
    [v] back to [v], exactly over the reals. *)
Theorem Sin_round_trip (v min_ max_ : R) :
  (min_ < v < max_)%R ->
  Internal2External SinParameterTransformation
    (External2Internal SinParameterTransformation v min_ max_) min_ max_ = v.
Proof.
  intros [Hlo Hhi]. cbn.
  assert (Hd : (0 < max_ - min_)%R) by lra.
  set (a := (2 * v / (max_ - min_) - min_ / (max_ - min_)
             - max_ / (max_ - min_))%R).
  assert (Ha : a = ((2 * v - min_ - max_) / (max_ - min_))%R)
    by (unfold a; field; lra).
  assert (Hr : (-1 <= a <= 1)%R).
  { rewrite Ha. split.
    - apply Rmult_le_reg_r with (max_ - min_)%R; [lra|].
      unfold Rdiv. rewrite Rmult_assoc, Rinv_l by lra. lra.
    - apply Rmult_le_reg_r with (max_ - min_)%R; [lra|].
      unfold Rdiv. rewrite Rmult_assoc, Rinv_l by lra. lra. }
  rewrite (sin_asin a Hr), Ha. field. lra.
Qed.

Lemma Sin_round_trip_witness :
  Internal2External SinParameterTransformation
    (External2Internal SinParameterTransformation 7 0 10) 0 10 = 7%R.
Proof. apply (Sin_round_trip 7 0 10). lra. Defined.

(** [atanh] inverts [tanh] on (-1, 1). *)
Lemma tanh_atanh (x : R) : (-1 < x < 1)%R -> tanh (atanh x) = x.
Proof.
  intros Hx. unfold tanh, sinh, cosh, atanh.
  assert (Hq : (0 < (1 + x) / (1 - x))%R) by (apply Rdiv_lt_0_compat; lra).
  set (y := (/ 2 * ln ((1 + x) / (1 - x)))%R).
  assert (He : (Rtrigo_def.exp y * Rtrigo_def.exp y = (1 + x) / (1 - x))%R).
  { rewrite <- exp_plus.
    replace (y + y)%R with (ln ((1 + x) / (1 - x))) by (unfold y; field).
    apply exp_ln, Hq. }
  rewrite exp_Ropp.
  pose proof (exp_pos y) as Hp.
  assert (Hs : (Rtrigo_def.exp y * Rtrigo_def.exp y * (1 - x) = 1 + x)%R).
  { rewrite He. field. lra. }
  apply Rmult_eq_reg_r with (Rtrigo_def.exp y * Rtrigo_def.exp y + 1)%R;
    [|nra].
  transitivity (Rtrigo_def.exp y * Rtrigo_def.exp y - 1)%R.
  - field. split; nra.
  - nra.
Qed.

Lemma derivable_pt_lim_atanh (x : R) :
  (-1 < x < 1)%R -> derivable_pt_lim atanh x (/ (1 - x ^ 2))%R.
Proof.
  intros Hx.
  assert (H1 : derivable_pt_lim (plus_fct (fct_cte 1) Ranalysis1.id) x (0 + 1)%R).
  { apply derivable_pt_lim_plus;
      [apply derivable_pt_lim_const | apply derivable_pt_lim_id]. }
  assert (H2 : derivable_pt_lim (minus_fct (fct_cte 1) Ranalysis1.id) x (0 - 1)%R).
  { apply derivable_pt_lim_minus;
      [apply derivable_pt_lim_const | apply derivable_pt_lim_id]. }
  assert (Hq : derivable_pt_lim
                 (div_fct (plus_fct (fct_cte 1) Ranalysis1.id)
                          (minus_fct (fct_cte 1) Ranalysis1.id)) x
                 (((0 + 1) * (1 - x) - (0 - 1) * (1 + x)) / Rsqr (1 - x))%R).
  { apply (derivable_pt_lim_div _ _ x _ _ H1 H2).
    unfold minus_fct, fct_cte, Ranalysis1.id. lra. }
  assert (Hpos : (0 < (1 + x) / (1 - x))%R) by (apply Rdiv_lt_0_compat; lra).
  pose proof (derivable_pt_lim_comp _ _ _ _ _ Hq (derivable_pt_lim_ln _ Hpos))
    as Hc.
  pose proof (derivable_pt_lim_scal _ (/2) _ _ Hc) as Hs.
  replace (/ (1 - x ^ 2))%R with
    (/ 2 * (/ ((1 + x) / (1 - x)) *
            (((0 + 1) * (1 - x) - (0 - 1) * (1 + x)) / Rsqr (1 - x))))%R.
  - exact Hs.
  - unfold Rsqr. field. repeat split; nra.
Qed.

(** The derivative of [TanhParameterTransformation::Internal2External] with
    respect to [val], inside the bounds. *)
Lemma Tanh_Internal2External_derivative (val min_ max_ : R) :
  (min_ < val < max_)%R ->
  derivable_pt_lim
    (fun x => Internal2External TanhParameterTransformation x min_ max_) val
    (2 / ((max_ - min_) * (1 - (2 * (val - min_) / (max_ - min_) - 1) ^ 2)))%R.
Proof.
  intros [Hlo Hhi].
  set (u := fun x : R => (2 * (x - min_) / (max_ - min_) - 1)%R).
  assert (Hu : derivable_pt_lim u val (2 / (max_ - min_))%R).
  { intros eps Heps. exists (mkposreal 1 Rlt_0_1). intros d Hd _.
    replace ((u (val + d) - u val) / d - 2 / (max_ - min_))%R with 0%R
      by (unfold u; field; split; [lra | exact Hd]).
    by rewrite Rabs_R0. }
  assert (Hr : (-1 < u val < 1)%R).
  { unfold u. split.
    - apply Rmult_lt_reg_r with (max_ - min_)%R; [lra|].
      replace ((2 * (val - min_) / (max_ - min_) - 1) * (max_ - min_))%R
        with (2 * (val - min_) - (max_ - min_))%R by (field; lra).
      lra.
    - apply Rmult_lt_reg_r with (max_ - min_)%R; [lra|].
      replace ((2 * (val - min_) / (max_ - min_) - 1) * (max_ - min_))%R
        with (2 * (val - min_) - (max_ - min_))%R by (field; lra).
      lra. }
  pose proof (derivable_pt_lim_comp _ _ _ _ _ Hu
                (derivable_pt_lim_atanh _ Hr)) as Hc.
  replace (2 / ((max_ - min_) * (1 - (2 * (val - min_) / (max_ - min_) - 1) ^ 2)))%R
    with (/ (1 - u val ^ 2) * (2 / (max_ - min_)))%R.
  - exact Hc.
  - change (2 * (val - min_) / (max_ - min_) - 1)%R with (u val).
    generalize dependent (u val). intros w Hw _.
    assert (Hw2 : (0 < (1 - w) * (1 + w))%R)
      by (apply Rmult_lt_0_compat; lra).
    field. split; [lra | nra].
Qed.

(** C9 (fails on the code): at [val = 15/2] with bounds [0, 10] the map
    [Internal2External] of the tanh transformation has derivative 4/15, while
    [DerivativeInternal2External] returns 4/5; so the latter is not the
    derivative of the former. *)
Theorem Tanh_DerivativeInternal2External_mismatch :
  derivable_pt_lim
    (fun x => Internal2External TanhParameterTransformation x 0 10)
    (15 / 2) (4 / 15)%R
  /\ DerivativeInternal2External TanhParameterTransformation (15 / 2) 0 10
     = (4 / 5)%R
  /\ ~ derivable_pt_lim
         (fun x => Internal2External TanhParameterTransformation x 0 10)
         (15 / 2)
         (DerivativeInternal2External TanhParameterTransformation (15 / 2) 0 10).
Proof.
  assert (Hd : derivable_pt_lim
                 (fun x => Internal2External TanhParameterTransformation x 0 10)
                 (15 / 2) (4 / 15)%R).
  { replace (4 / 15)%R with
      (2 / ((10 - 0) * (1 - (2 * (15 / 2 - 0) / (10 - 0) - 1) ^ 2)))%R
      by (field_simplify; lra).
    apply Tanh_Internal2External_derivative. lra. }
  assert (Hv : DerivativeInternal2External TanhParameterTransformation
                 (15 / 2) 0 10 = (4 / 5)%R).
  { cbn. field. }
  split; [exact Hd|]. split; [exact Hv|].
  rewrite Hv. intros Hbad.
  pose proof (uniqueness_limite _ _ _ _ Hd Hbad). lra.
Qed.

(** ** Bounds *)

Lemma lookup_total_update_info (p : positive) (f : VariableInfo -> VariableInfo)
    (h : Heap) :
  update_info p f h !!! p = f (h !!! p).
Proof. unfold update_info. apply lookup_total_insert_eq. Qed.

Lemma lookup_total_update_info_ne (p q : positive)
    (f : VariableInfo -> VariableInfo) (h : Heap) :
  p <> q -> update_info p f h !!! q = h !!! q.
Proof. intros Hne. unfold update_info. by apply lookup_total_insert_ne. Qed.

Lemma double_add_finite (a b : R) :
  sum_in_range a b -> double_add a b = finite (a + b).
Proof.
  intros [Hlo Hhi]. unfold double_add.
  destruct (decide _) as [_|Hn]; [|done].
  by destruct (decide _) as [_|Hn].
Qed.

Lemma double_add_pos_infinity (a b : R) :
  (overflow_threshold <= a + b)%R -> double_add a b = pos_infinity.
Proof.
  intros Hhi. unfold double_add.
  destruct (decide _) as [Hlt|_]; [lra|done].
Qed.

Lemma overflow_threshold_large : (IZR (10 ^ 300) < overflow_threshold)%R.
Proof. apply IZR_lt. by vm_compute. Qed.

Lemma SetBounds_test (min_boundary max_boundary : R) (v : Variable_) (h : Heap) :
  let v' := SetMaxBoundary max_boundary
              (SetMinBoundary min_boundary (set_bounded_m true v)) in
  needs_reset (vvalue (h !!! info v)) min_boundary max_boundary ->
  SetBounds min_boundary max_boundary v h
  = (v', SetValue_double v'
           (double_halve (double_add min_boundary max_boundary)) h).
Proof.
  intros v' Hreset. unfold SetBounds. fold v'.
  replace (_ || _ || _) with true; [done|].
  symmetry. cbn. destruct Hreset as [H|[H|H]].
  - by rewrite (bool_decide_eq_true_2 _ H).
  - rewrite (bool_decide_eq_true_2 _ H). by rewrite orb_true_r.
  - rewrite (bool_decide_eq_true_2 _ H). by rewrite orb_true_r.
Qed.

Lemma SetBounds_no_test (min_boundary max_boundary : R) (v : Variable_) (h : Heap) :
  ~ needs_reset (vvalue (h !!! info v)) min_boundary max_boundary ->
  SetBounds min_boundary max_boundary v h
  = (SetMaxBoundary max_boundary
       (SetMinBoundary min_boundary (set_bounded_m true v)), h).
Proof.
  intros Hkeep. unfold SetBounds, needs_reset in *. cbn.
  rewrite !bool_decide_eq_false_2; [done| |tauto|tauto].
  tauto.
Qed.

(** C10, for ordered bounds whose sum does not overflow: [SetBounds(min, max)]
    with [min <= max] and [min + max] a finite [double] marks the variable
    bounded, stores the bounds and, when the current value is below [min],
    above [max] or equal to 0, replaces it by [(min + max)/2]; otherwise
    nothing on the heap changes. *)
Theorem SetBounds_ordered (min_boundary max_boundary : R) (v : Variable_)
    (h : Heap) :
  (min_boundary <= max_boundary)%R ->
  sum_in_range min_boundary max_boundary ->
  let x := vvalue (h !!! info v) in
  let v' := (SetBounds min_boundary max_boundary v h).1 in
  let h' := (SetBounds min_boundary max_boundary v h).2 in
  (bounded_m v' = true /\ min_boundary_m v' = min_boundary
   /\ max_boundary_m v' = max_boundary /\ info v' = info v)
  /\ (needs_reset x min_boundary max_boundary ->
      vvalue (h' !!! info v) = ((min_boundary + max_boundary) / 2)%R)
  /\ (~ needs_reset x min_boundary max_boundary -> h' = h).
Proof.
  intros Hle Hsum x v' h'. subst x v' h'. split; [|split].
  - unfold SetBounds. by destruct (_ || _ || _).
  - intros Hreset. rewrite (SetBounds_test _ _ _ _ Hreset).
    rewrite (double_add_finite _ _ Hsum). cbn.
    unfold SetValue; cbn.
    destruct (decide _) as [Hne|_]; [by destruct Hne|].
    destruct (decide _) as [Hlt|_]; [lra|].
    destruct (decide _) as [Hgt|_]; [lra|].
    by rewrite lookup_total_insert_eq.
  - intros Hkeep. by rewrite (SetBounds_no_test _ _ _ _ Hkeep).
Qed.

Lemma SetBounds_ordered_witness :
  let h : Heap := {[ 1%positive := leaf 1 0 ]} in
  vvalue ((SetBounds (-2) 6 (handle 1) h).2 !!! 1%positive) = ((-2 + 6) / 2)%R.
Proof.
  intros h.
  refine (proj1 (proj2 (SetBounds_ordered (-2) 6 (handle 1) h _ _)) _).
  - lra.
  - pose proof overflow_threshold_large as Hbig.
    assert (4 < IZR (10 ^ 300))%R by (apply IZR_lt; by vm_compute).
    unfold sum_in_range. lra.
  - right; right. unfold h. by rewrite lookup_total_singleton_eq.
Defined.

(** C10 as stated fails when the bounds are given in reverse order: with
    [min = 10], [max = 0] and current value 1 (below [min], so outside the
    bounds) the stored value becomes [min = 10], not the midpoint 5, because
    [SetValue] clamps the midpoint to the lower bound. *)
Lemma SetBounds_reversed_counterexample :
  let h : Heap := {[ 1%positive := leaf 1 1 ]} in
  needs_reset (vvalue (h !!! 1%positive)) 10 0
  /\ vvalue ((SetBounds 10 0 (handle 1) h).2 !!! 1%positive) = 10%R
  /\ vvalue ((SetBounds 10 0 (handle 1) h).2 !!! 1%positive)
     <> ((10 + 0) / 2)%R.
Proof.
  intros h.
  assert (Hreset : needs_reset (vvalue (h !!! 1%positive)) 10 0).
  { left. unfold h. rewrite lookup_total_singleton_eq. cbn. lra. }
  assert (Hval : vvalue ((SetBounds 10 0 (handle 1) h).2 !!! 1%positive) = 10%R).
  { rewrite (SetBounds_test 10 0 (handle 1) h Hreset).
    rewrite double_add_finite; cycle 1.
    { pose proof overflow_threshold_large as Hbig.
      assert (10 < IZR (10 ^ 300))%R by (apply IZR_lt; by vm_compute).
      unfold sum_in_range. lra. }
    cbn. unfold SetValue; cbn.
    destruct (decide _) as [Hne|_]; [by destruct Hne|].
    destruct (decide _) as [Hlt|Hge]; [|lra].
    by rewrite lookup_total_insert_eq. }
  split; [done|]. split; [done|]. rewrite Hval. lra.
Qed.

(** The range condition of C10 is needed as well: with [min = 1e308],
    [max = 1.7e308] and current value 1 the bounds are ordered and the value
    lies below [min], but the sum of the bounds overflows to the positive
    infinity, which [SetValue] clamps: the stored value is [max], not the
    midpoint [1.35e308]. *)
Lemma SetBounds_overflow_stores_max :
  let h : Heap := {[ 1%positive := leaf 1 1 ]} in
  let min_boundary := IZR (10 ^ 308) in
  let max_boundary := IZR (17 * 10 ^ 307) in
  (min_boundary <= max_boundary)%R
  /\ needs_reset (vvalue (h !!! 1%positive)) min_boundary max_boundary
  /\ ~ sum_in_range min_boundary max_boundary
  /\ vvalue ((SetBounds min_boundary max_boundary (handle 1) h).2 !!! 1%positive)
     = max_boundary
  /\ vvalue ((SetBounds min_boundary max_boundary (handle 1) h).2 !!! 1%positive)
     <> ((min_boundary + max_boundary) / 2)%R.
Proof.
  intros h min_boundary max_boundary.
  assert (Hlt : (min_boundary < max_boundary)%R).
  { apply IZR_lt. by vm_compute. }
  assert (Hone : (1 < min_boundary)%R).
  { apply IZR_lt. by vm_compute. }
  assert (Hover : (overflow_threshold <= min_boundary + max_boundary)%R).
  { unfold min_boundary, max_boundary, overflow_threshold.
    rewrite <- plus_IZR. apply IZR_le. by vm_compute. }
  assert (Hreset : needs_reset (vvalue (h !!! 1%positive))
                     min_boundary max_boundary).
  { left. unfold h. rewrite lookup_total_singleton_eq. cbn. lra. }
  assert (Hval : vvalue ((SetBounds min_boundary max_boundary (handle 1) h).2
                         !!! 1%positive) = max_boundary).
  { rewrite (SetBounds_test _ _ (handle 1) h Hreset).
    rewrite (double_add_pos_infinity _ _ Hover). cbn.
    by rewrite lookup_total_insert_eq. }
  split; [lra|]. split; [done|]. split; [unfold sum_in_range; lra|].
  split; [done|]. rewrite Hval. lra.
Qed.

(** ** The tape under an assignment *)

Lemma fold_left_invariant {A B : Type} (P : A -> Prop) (f : A -> B -> A)
    (l : list B) (a : A) :
  P a -> (forall a b, P a -> P (f a b)) -> P (fold_left f l a).
Proof.
  intros Ha Hstep. revert a Ha.
  induction l as [|b l IH]; intros a Ha; cbn; [done|].
  by apply IH, Hstep.
Qed.

(** The loop of [FIRST_ORDER] touches the id range of the tape only. *)
Lemma FIRST_ORDER_loop_storage (exp : Expression) (h : Heap)
    (l : list positive) (gs : GradientStructure) (entry : StackEntry.t)
    (i : nat) :
  let r := fold_left (FIRST_ORDER_step exp h) l (gs, entry, i) in
  gradient_stack r.1.1 = gradient_stack gs
  /\ stack_current r.1.1 = stack_current gs
  /\ StackEntry.ids r.1.2 = StackEntry.ids entry.
Proof.
  apply (fold_left_invariant
           (fun r : GradientStructure * StackEntry.t * nat =>
              gradient_stack r.1.1 = gradient_stack gs
              /\ stack_current r.1.1 = stack_current gs
              /\ StackEntry.ids r.1.2 = StackEntry.ids entry)).
  - done.
  - intros [[g e] k] it (Hs & Hc & Hi). unfold FIRST_ORDER_step; cbn.
    by repeat case_match.
Qed.

Lemma NextIndex_slot (gs : GradientStructure) :
  (NextIndex gs).1 = stack_current gs
  /\ stack_current (NextIndex gs).2 = S (stack_current gs)
  /\ stack_current gs < length (gradient_stack (NextIndex gs).2).
Proof.
  unfold NextIndex; cbn. split; [done|]. split; [done|].
  rewrite length_app, length_replicate. lia.
Qed.

(** Whatever the trace level, a recording assignment leaves the tape as
    [NextIndex] made it, up to the id range, with one record stored in the
    slot [NextIndex] returned. *)
Lemma Assign_p_tape (this : Variable_) (exp : Expression) (h : Heap)
    (gs : GradientStructure) :
  recording gs = true ->
  exists (entry : StackEntry.t) (g1 : GradientStructure),
    outcome_tape (Assign_p this exp h gs)
    = store_entry (NextIndex gs).1 entry g1
    /\ gradient_stack g1 = gradient_stack (NextIndex gs).2
    /\ stack_current g1 = S (stack_current gs).
Proof.
  intros Hrec. unfold Assign_p. rewrite Hrec.
  unfold NextIndex; cbn -[resize].
  destruct (derivative_trace_level gs) eqn:Hlevel.
  - match goal with
    | |- context [fold_left ?f ?l ?a] =>
        pose proof (FIRST_ORDER_loop_storage exp h l a.1.1 a.1.2 a.2) as Hloop;
        cbn -[resize] in Hloop;
        destruct (fold_left f l a) as [[g e] k]
    end.
    destruct Hloop as (Hs & Hc & _). cbn in *. by exists e, g.
  - by eexists _, _.
  - by eexists _, _.
  - repeat match goal with
           | |- context [fold_left ?f ?l ?a] =>
               destruct (fold_left f l a) as [[? ?] ?]
           end.
    by eexists _, _.
  - repeat match goal with
           | |- context [fold_left ?f ?l ?a] =>
               destruct (fold_left f l a) as [[? ?] ?]
           end.
    by eexists _, _.
  - match goal with
    | |- context [fold_left ?f ?l ?a] => destruct (fold_left f l a) as [? ?]
    end.
    by eexists _, _.
  - unfold GRADIENT_AND_HESSIAN_case.
    match goal with
    | |- context [fold_left ?f ?l ?a] =>
        destruct (fold_left f l a) as [[? ?] ?]
    end.
    by eexists _, _.
  - by eexists _, _.
  - by eexists _, _.
Qed.

Lemma tape_store_append (gs g1 : GradientStructure) (entry : StackEntry.t) :
  cursor_in_storage gs ->
  gradient_stack g1 = gradient_stack (NextIndex gs).2 ->
  stack_current g1 = S (stack_current gs) ->
  tape (store_entry (NextIndex gs).1 entry g1) = tape gs ++ [entry]
  /\ gradient_stack (store_entry (NextIndex gs).1 entry g1) !! (NextIndex gs).1
     = Some entry
  /\ stack_current (store_entry (NextIndex gs).1 entry g1)
     = S (stack_current gs).
Proof.
  intros Hin Hs Hc.
  destruct (NextIndex_slot gs) as (Hidx & _ & Hlt).
  rewrite Hidx. unfold tape, store_entry; cbn [gradient_stack stack_current set_gradient_stack].
  rewrite Hc, Hs.
  assert (Hlook : <[stack_current gs := entry]> (gradient_stack (NextIndex gs).2)
                    !! stack_current gs = Some entry)
    by (by apply list_lookup_insert_eq).
  split; [|done].
  rewrite (take_S_r _ _ _ Hlook). f_equal.
  rewrite take_insert_ge by lia.
  unfold NextIndex; cbn. by apply take_app_le.
Qed.

(** C1: on a recording tape, assigning a scalar leaves the tape as it is,
    while assigning an expression, or another variable, appends exactly one
    record to it, in the slot that [NextIndex] returns. *)
Theorem assignment_tape_growth (this other : Variable_) (exp : Expression)
    (value : R) (h : Heap) (gs : GradientStructure) :
  recording gs = true ->
  cursor_in_storage gs ->
  outcome_tape (assign_scalar this value h gs) = gs
  /\ (exists entry : StackEntry.t,
        tape (outcome_tape (assign_expression this exp h gs))
        = tape gs ++ [entry]
        /\ gradient_stack (outcome_tape (assign_expression this exp h gs))
             !! (NextIndex gs).1 = Some entry
        /\ stack_current (outcome_tape (assign_expression this exp h gs))
           = S (stack_current gs))
  /\ (exists entry : StackEntry.t,
        tape (outcome_tape (assign_variable this other h gs))
        = tape gs ++ [entry]
        /\ gradient_stack (outcome_tape (assign_variable this other h gs))
             !! (NextIndex gs).1 = Some entry
        /\ stack_current (outcome_tape (assign_variable this other h gs))
           = S (stack_current gs)).
Proof.
  intros Hrec Hin. split; [done|].
  unfold assign_expression, assign_variable. split.
  - destruct (Assign_p_tape this exp h gs Hrec) as (e & g1 & -> & Hs & Hc).
    exists e. by apply tape_store_append.
  - destruct (Assign_p_tape this (VariableNode other) h gs Hrec)
      as (e & g1 & -> & Hs & Hc).
    exists e. by apply tape_store_append.
Qed.

Lemma assignment_tape_growth_witness :
  outcome_tape (assign_scalar (handle 1) 2 ∅ (fresh_tape GRADIENT))
  = fresh_tape GRADIENT
  /\ exists entry : StackEntry.t,
       tape (outcome_tape
               (assign_expression (handle 1) (Sinh (VariableNode (handle 2)))
                  ∅ (fresh_tape GRADIENT)))
       = tape (fresh_tape GRADIENT) ++ [entry]
       /\ gradient_stack
            (outcome_tape
               (assign_expression (handle 1) (Sinh (VariableNode (handle 2)))
                  ∅ (fresh_tape GRADIENT)))
            !! (NextIndex (fresh_tape GRADIENT)).1 = Some entry
       /\ stack_current
            (outcome_tape
               (assign_expression (handle 1) (Sinh (VariableNode (handle 2)))
                  ∅ (fresh_tape GRADIENT)))
          = S (stack_current (fresh_tape GRADIENT)).
Proof.
  pose proof (assignment_tape_growth (handle 1) (handle 2)
                (Sinh (VariableNode (handle 2))) 2 ∅ (fresh_tape GRADIENT)
                eq_refl (le_n 0)) as (Hs & He & _).
  exact (conj Hs He).
Defined.

(** ** What an assignment does to the heap *)

Lemma SetValue_shape (v : Variable_) (value : R) (h : Heap) :
  exists y : R, SetValue v value h = update_info (info v) (set_vvalue y) h.
Proof. unfold SetValue. repeat case_match; by eexists. Qed.

(** [SetValue] writes [vvalue] and nothing else. *)
Lemma SetValue_frame (v : Variable_) (value : R) (h : Heap) (p : positive) :
  id (SetValue v value h !!! p) = id (h !!! p)
  /\ is_dependent (SetValue v value h !!! p) = is_dependent (h !!! p)
  /\ dependence_level (SetValue v value h !!! p) = dependence_level (h !!! p).
Proof.
  destruct (SetValue_shape v value h) as [y ->].
  destruct (decide (info v = p)) as [->|Hne].
  - by rewrite lookup_total_update_info.
  - by rewrite lookup_total_update_info_ne.
Qed.

Lemma Assign_p_FIRST_ORDER_heap (this : Variable_) (exp : Expression)
    (h : Heap) (gs : GradientStructure) :
  recording gs = true ->
  derivative_trace_level gs = FIRST_ORDER ->
  outcome_heap (Assign_p this exp h gs) = SetValue this (GetValue exp h) h.
Proof.
  intros Hrec Hlevel. unfold Assign_p. rewrite Hrec.
  unfold NextIndex; cbn -[resize]. rewrite Hlevel.
  by destruct (fold_left _ _ _) as [[g e] k].
Qed.

(** C2 (fails on the code): under [FIRST_ORDER] a recording assignment leaves
    the [is_dependent] counter of the assigned variable's info as it was; the
    increment written ahead of the first [case] label is never executed. *)
Theorem FIRST_ORDER_is_dependent_unchanged (this : Variable_)
    (exp : Expression) (h : Heap) (gs : GradientStructure) :
  recording gs = true ->
  derivative_trace_level gs = FIRST_ORDER ->
  is_dependent (outcome_heap (Assign_p this exp h gs) !!! info this)
  = is_dependent (h !!! info this).
Proof.
  intros Hrec Hlevel. rewrite Assign_p_FIRST_ORDER_heap by done.
  apply SetValue_frame.
Qed.

Lemma FIRST_ORDER_is_dependent_unchanged_witness :
  is_dependent
    (outcome_heap
       (Assign_p (handle 1) (VariableNode (handle 2)) two_leaves
          (fresh_tape FIRST_ORDER)) !!! 1%positive)
  = 0%Z.
Proof.
  exact (FIRST_ORDER_is_dependent_unchanged (handle 1)
           (VariableNode (handle 2)) two_leaves (fresh_tape FIRST_ORDER)
           eq_refl eq_refl).
Defined.

(** C3: a recording assignment at [SECOND_ORDER], [THIRD_ORDER] or an unknown
    trace level prints the diagnostic of that level, which carries the
    enumerator's name when there is one, and ends the process in [exit]; no
    derivative is evaluated and no value is assigned: the heap is the one the
    call started from and the slot is as it was at the [switch]. *)
Theorem unavailable_level_exits (this : Variable_) (exp : Expression)
    (h : Heap) (gs : GradientStructure) (msg : string) :
  recording gs = true ->
  diagnostic (derivative_trace_level gs) = Some msg ->
  Assign_p this exp h gs
  = Exited 0 msg h
      (store_entry (NextIndex gs).1 (prepared_entry exp gs) (NextIndex gs).2)
  /\ (forall name : string,
        level_name (derivative_trace_level gs) = Some name ->
        exists pre post : string, msg = (pre ++ name ++ post)%string).
Proof.
  intros Hrec Hmsg. split.
  - unfold Assign_p, prepared_entry. rewrite Hrec.
    unfold NextIndex; cbn -[resize].
    destruct (derivative_trace_level gs); cbn in Hmsg; try discriminate;
      by inversion Hmsg.
  - intros name Hname.
    destruct (derivative_trace_level gs); cbn in Hmsg, Hname;
      try discriminate; inversion Hmsg; inversion Hname;
      by exists dquote, (dquote ++ " not yet available!" ++ newline)%string.
Qed.

Lemma unavailable_level_exits_witness :
  Assign_p (handle 1) (VariableNode (handle 2)) two_leaves
    (fresh_tape SECOND_ORDER)
  = Exited 0 SECOND_ORDER_message two_leaves
      (store_entry (NextIndex (fresh_tape SECOND_ORDER)).1
         (prepared_entry (VariableNode (handle 2)) (fresh_tape SECOND_ORDER))
         (NextIndex (fresh_tape SECOND_ORDER)).2).
Proof.
  exact (proj1 (unavailable_level_exits (handle 1) (VariableNode (handle 2))
                  two_leaves (fresh_tape SECOND_ORDER) SECOND_ORDER_message
                  eq_refl eq_refl)).
Defined.

(** At every other trace level the call returns. *)
Lemma available_level_returns (this : Variable_) (exp : Expression)
    (h : Heap) (gs : GradientStructure) :
  diagnostic (derivative_trace_level gs) = None ->
  exists (h' : Heap) (gs' : GradientStructure),
    Assign_p this exp h gs = Returned h' gs'.
Proof.
  intros Hnone. unfold Assign_p.
  destruct (recording gs); [|by eexists _, _].
  unfold NextIndex, GRADIENT_AND_HESSIAN_case; cbn -[resize].
  destruct (derivative_trace_level gs); try discriminate;
    first [ by eexists _, _
          | destruct (fold_left _ _ _) as [[? ?] ?]; by eexists _, _
          | destruct (fold_left _ _ _) as [? ?]; by eexists _, _ ].
Qed.

(** ** The id range *)

Lemma FIRST_ORDER_step_range (exp : Expression) (h : Heap)
    (gs : GradientStructure) (entry : StackEntry.t) (i : nat) (it : positive) :
  let r := FIRST_ORDER_step exp h (gs, entry, i) it in
  (min_id r.1.1 <= min_id gs)%N /\ (max_id gs <= max_id r.1.1)%N
  /\ (min_id r.1.1 <= id (h !!! it) <= max_id r.1.1)%N.
Proof.
  unfold FIRST_ORDER_step; cbn.
  destruct (N.ltb_spec (max_id gs) (id (h !!! it))); cbn;
    destruct (N.ltb_spec (id (h !!! it)) (min_id gs)); cbn; lia.
Qed.

Lemma FIRST_ORDER_loop_range (exp : Expression) (h : Heap) (l : list positive) :
  forall (gs : GradientStructure) (entry : StackEntry.t) (i : nat),
    let r := fold_left (FIRST_ORDER_step exp h) l (gs, entry, i) in
    (min_id r.1.1 <= min_id gs)%N /\ (max_id gs <= max_id r.1.1)%N
    /\ forall it : positive,
         it ∈ l -> (min_id r.1.1 <= id (h !!! it) <= max_id r.1.1)%N.
Proof.
  induction l as [|x l IH]; intros gs entry i.
  - cbn. split; [lia|]. split; [lia|].
    intros it Hit. by apply elem_of_nil in Hit.
  - cbn [fold_left].
    pose proof (FIRST_ORDER_step_range exp h gs entry i x) as Hstep.
    destruct (FIRST_ORDER_step exp h (gs, entry, i) x) as [[g e] k].
    specialize (IH g e k). cbn in Hstep, IH |- *.
    destruct IH as (IH1 & IH2 & IH3). destruct Hstep as (Hg1 & Hg2 & Hg3).
    split; [lia|]. split; [lia|].
    intros it [->|Hit]%elem_of_cons; [lia | by apply IH3].
Qed.

Lemma Assign_p_FIRST_ORDER (this : Variable_) (exp : Expression) (h : Heap)
    (gs : GradientStructure) :
  recording gs = true ->
  derivative_trace_level gs = FIRST_ORDER ->
  let r := fold_left (FIRST_ORDER_step exp h)
             (StackEntry.ids (prepared_entry exp gs))
             ((NextIndex gs).2,
              StackEntry.set_w (Some (info this)) (prepared_entry exp gs), 0) in
  Assign_p this exp h gs
  = Returned (SetValue this (GetValue exp h) h)
      (store_entry (NextIndex gs).1 r.1.2 r.1.1).
Proof.
  intros Hrec Hlevel. unfold Assign_p, prepared_entry. rewrite Hrec.
  unfold NextIndex; cbn -[resize]. rewrite Hlevel.
  by destruct (fold_left _ _ _) as [[g e] k].
Qed.

Lemma Assign_p_GRADIENT (this : Variable_) (exp : Expression) (h : Heap)
    (gs : GradientStructure) :
  recording gs = true ->
  derivative_trace_level gs = GRADIENT ->
  let r := fold_left (GRADIENT_step exp h)
             (StackEntry.ids (prepared_entry exp gs))
             (StackEntry.set_w (Some (info this)) (prepared_entry exp gs), 0) in
  Assign_p this exp h gs
  = Returned (SetValue this (GetValue exp h) h)
      (store_entry (NextIndex gs).1 r.1 (NextIndex gs).2).
Proof.
  intros Hrec Hlevel. unfold Assign_p, prepared_entry. rewrite Hrec.
  unfold NextIndex; cbn -[resize]. rewrite Hlevel.
  by destruct (fold_left _ _ _) as [e k].
Qed.

Lemma GRADIENT_loop_ids (exp : Expression) (h : Heap) (l : list positive)
    (entry : StackEntry.t) (i : nat) :
  StackEntry.ids (fold_left (GRADIENT_step exp h) l (entry, i)).1
  = StackEntry.ids entry.
Proof.
  apply (fold_left_invariant
           (fun r : StackEntry.t * nat =>
              StackEntry.ids r.1 = StackEntry.ids entry)); [done|].
  by intros [e k] it He.
Qed.

(** C6, as the code has it: a recording assignment at [FIRST_ORDER] leaves
    [min_id] at most, and [max_id] at least, the id of every leaf in the
    [ids] of the record it stored; at [GRADIENT] it stores the record and
    leaves [min_id] and [max_id] as they were. *)
Theorem id_range_after_assignment (this : Variable_) (exp : Expression)
    (h : Heap) (gs : GradientStructure) :
  recording gs = true ->
  let first_order := Assign_p this exp h (set_trace_level FIRST_ORDER gs) in
  let gradient := Assign_p this exp h (set_trace_level GRADIENT gs) in
  (exists entry : StackEntry.t,
     gradient_stack (outcome_tape first_order) !! (NextIndex gs).1 = Some entry
     /\ StackEntry.ids entry = StackEntry.ids (prepared_entry exp gs)
     /\ forall it : positive,
          it ∈ StackEntry.ids entry ->
          (min_id (outcome_tape first_order)
           <= id (outcome_heap first_order !!! it)
           <= max_id (outcome_tape first_order))%N)
  /\ (exists entry : StackEntry.t,
        gradient_stack (outcome_tape gradient) !! (NextIndex gs).1 = Some entry
        /\ StackEntry.ids entry = StackEntry.ids (prepared_entry exp gs)
        /\ min_id (outcome_tape gradient) = min_id gs
        /\ max_id (outcome_tape gradient) = max_id gs).
Proof.
  intros Hrec first_order gradient.
  destruct (NextIndex_slot gs) as (Hidx & _ & Hlt).
  split.
  - subst first_order.
    rewrite (Assign_p_FIRST_ORDER this exp h (set_trace_level FIRST_ORDER gs))
      by done.
    match goal with
    | |- context [fold_left ?f ?l (?g, ?e, ?k)] =>
        pose proof (FIRST_ORDER_loop_storage exp h l g e k) as (Hs & _ & Hi);
        pose proof (FIRST_ORDER_loop_range exp h l g e k) as (_ & _ & Hr);
        destruct (fold_left f l (g, e, k)) as [[g' e'] k'] eqn:Hfold
    end.
    cbn -[NextIndex prepared_entry] in *.
    exists e'. split; [|split].
    + rewrite Hs. by apply list_lookup_insert_eq.
    + exact Hi.
    + intros it Hit.
      destruct (SetValue_frame this (GetValue exp h) h it) as (-> & _).
      apply Hr. by rewrite <- Hi.
  - subst gradient.
    rewrite (Assign_p_GRADIENT this exp h (set_trace_level GRADIENT gs)) by done.
    eexists. split; [|split; [|done]].
    + cbn -[NextIndex prepared_entry]. by apply list_lookup_insert_eq.
    + cbn -[NextIndex prepared_entry]. by rewrite GRADIENT_loop_ids.
Qed.

Lemma id_range_after_assignment_witness :
  exists entry : StackEntry.t,
    gradient_stack
      (outcome_tape
         (Assign_p (handle 1) (VariableNode (handle 2)) two_leaves
            (set_trace_level GRADIENT (fresh_tape FIRST_ORDER))))
      !! (NextIndex (fresh_tape FIRST_ORDER)).1 = Some entry
    /\ StackEntry.ids entry
       = StackEntry.ids
           (prepared_entry (VariableNode (handle 2)) (fresh_tape FIRST_ORDER))
    /\ min_id
         (outcome_tape
            (Assign_p (handle 1) (VariableNode (handle 2)) two_leaves
               (set_trace_level GRADIENT (fresh_tape FIRST_ORDER))))
       = min_id (fresh_tape FIRST_ORDER)
    /\ max_id
         (outcome_tape
            (Assign_p (handle 1) (VariableNode (handle 2)) two_leaves
               (set_trace_level GRADIENT (fresh_tape FIRST_ORDER))))
       = max_id (fresh_tape FIRST_ORDER).
Proof.
  exact (proj2 (id_range_after_assignment (handle 1) (VariableNode (handle 2))
                  two_leaves (fresh_tape FIRST_ORDER) eq_refl)).
Defined.

(** C6 as stated fails at [GRADIENT]: on a tape whose id range is still
    empty, assigning [v = u] with [u] of id 2 stores a record whose [ids]
    hold [u], and leaves [min_id = 4294967295] and [max_id = 0]. *)
Lemma GRADIENT_id_range_counterexample :
  let o := Assign_p (handle 1) (VariableNode (handle 2)) two_leaves
             (fresh_tape GRADIENT) in
  exists entry : StackEntry.t,
    gradient_stack (outcome_tape o) !! 0 = Some entry
    /\ StackEntry.ids entry = [2%positive]
    /\ id (outcome_heap o !!! 2%positive) = 2%N
    /\ min_id (outcome_tape o) = 4294967295%N
    /\ max_id (outcome_tape o) = 0%N
    /\ ~ (min_id (outcome_tape o) <= id (outcome_heap o !!! 2%positive)
          <= max_id (outcome_tape o))%N.
Proof.
  intros o. subst o.
  rewrite (Assign_p_GRADIENT (handle 1) (VariableNode (handle 2)) two_leaves
             (fresh_tape GRADIENT) eq_refl eq_refl).
  cbn. eexists. split; [reflexivity|]. split; [reflexivity|].
  rewrite lookup_total_insert_ne by done.
  assert (Hid : id (two_leaves !!! 2%positive) = 2%N) by reflexivity.
  rewrite Hid. repeat split. lia.
Qed.

(** ** The Hessian block of [GRADIENT_AND_HESSIAN] *)

Lemma cell_inj (n a b a' b' : nat) :
  b < n -> b' < n -> a * n + b = a' * n + b' -> a = a' /\ b = b'.
Proof.
  intros Hb Hb' Heq.
  destruct (Nat.lt_trichotomy a a') as [Hlt|[->|Hlt]].
  - assert ((a + 1) * n <= a' * n) by (apply Nat.mul_le_mono_r; lia). lia.
  - lia.
  - assert ((a' + 1) * n <= a * n) by (apply Nat.mul_le_mono_r; lia). lia.
Qed.

Lemma cell_lt (n a b : nat) : a < n -> b < n -> a * n + b < n * n.
Proof.
  intros Ha Hb.
  assert ((a + 1) * n <= n * n) by (apply Nat.mul_le_mono_r; lia). lia.
Qed.

(** The inner loop started at column [j] of row [i]: it writes the cells
    [(i, b)] and [(b, i)] for [j <= b <= i] and no other. *)
Lemma GRADIENT_AND_HESSIAN_inner_spec (exp : Expression) (h : Heap)
    (it : positive) (i : nat) (l : list positive) :
  forall (k j : nat) (e : StackEntry.t),
    i - j = k -> j <= i -> i < length l ->
    length (StackEntry.first e) = length l ->
    length (StackEntry.second_mixed e) = length l * length l ->
    let e' := GRADIENT_AND_HESSIAN_inner exp h it i (drop j l) j e in
    StackEntry.first e' = StackEntry.first e
    /\ StackEntry.ids e' = StackEntry.ids e
    /\ length (StackEntry.second_mixed e') = length l * length l
    /\ forall a b : nat,
         a < length l -> b < length l ->
         StackEntry.second_mixed e' !! (a * length l + b)
         = if decide ((a = i /\ j <= b <= i) \/ (b = i /\ j <= a <= i))
           then Some (EvaluateDerivative2 exp h (id (h !!! it))
                        (id (h !!! (l !!! (a `min` b)))))
           else StackEntry.second_mixed e !! (a * length l + b).
Proof.
  induction k as [|k IH]; intros j e Hk Hji Hi Hfirst Hsm.
  - assert (j = i) as -> by lia.
    pose proof (list_lookup_lookup_total_lt l i Hi) as Hjt.
    rewrite (drop_S _ _ _ Hjt). cbn [GRADIENT_AND_HESSIAN_inner].
    rewrite Nat.eqb_refl, andb_false_r. cbn. rewrite Hfirst.
    split; [done|]. split; [done|]. split; [by rewrite length_insert|].
    intros a b Ha Hb. case_decide as Hc.
    + assert (a = i /\ b = i) as [-> ->] by lia.
      rewrite list_lookup_insert_eq by (rewrite Hsm; by apply cell_lt).
      by rewrite Nat.min_id.
    + rewrite list_lookup_insert_ne; [done|].
      intros Heq. apply cell_inj in Heq as [-> ->]; [|lia|lia]. lia.
  - assert (Hjl : j < length l) by lia.
    pose proof (list_lookup_lookup_total_lt l j Hjl) as Hjt.
    rewrite (drop_S _ _ _ Hjt). cbn [GRADIENT_AND_HESSIAN_inner].
    assert (Hpos : (0 <? i) = true) by (apply Nat.ltb_lt; lia).
    assert (Hne : (i =? j) = false) by (apply Nat.eqb_neq; lia).
    assert (Hne' : (j =? i) = false) by (apply Nat.eqb_neq; lia).
    rewrite Hpos, Hne, Hne'. cbn [andb negb]. rewrite Hfirst.
    match goal with
    | |- context [GRADIENT_AND_HESSIAN_inner _ _ _ _ _ _ ?e1] =>
        specialize (IH (S j) e1)
    end.
    cbn [StackEntry.first StackEntry.second_mixed StackEntry.ids
         StackEntry.set_second_mixed] in IH.
    rewrite !length_insert in IH.
    specialize (IH ltac:(lia) ltac:(lia) Hi Hfirst Hsm).
    destruct IH as (IH1 & IH2 & IH3 & IH4).
    split; [done|]. split; [done|]. split; [done|].
    intros a b Ha Hb. rewrite (IH4 a b Ha Hb).
    case_decide as Hc1; case_decide as Hc2; try done; try lia.
    + assert ((a = i /\ b = j) \/ (a = j /\ b = i)) as [[-> ->]|[-> ->]] by lia.
      * rewrite list_lookup_insert_ne
          by (intros Heq; apply cell_inj in Heq; lia).
        rewrite list_lookup_insert_eq by (rewrite Hsm; by apply cell_lt).
        by rewrite Nat.min_r by lia.
      * rewrite list_lookup_insert_eq
          by (rewrite length_insert, Hsm; by apply cell_lt).
        by rewrite Nat.min_l by lia.
    + rewrite !list_lookup_insert_ne; [done| |];
        intros Heq; apply cell_inj in Heq; lia.
Qed.

Lemma row_heap_step (l : list positive) (h : Heap) (k : nat) :
  k < length l ->
  incr_dependence_level (l !!! k)
    (fold_left (fun h it => incr_dependence_level it h) (take k l) h)
  = row_heap l h k.
Proof.
  intros Hk. unfold row_heap.
  rewrite (take_S_r l k (l !!! k)) by (by apply list_lookup_lookup_total_lt).
  by rewrite fold_left_app.
Qed.

(** The outer loop after [k] rows: the cells of the leading [k] by [k] block
    hold the second partials, each evaluated in the heap of the later of its
    two rows; the other cells are as the loop found them. *)
Lemma GRADIENT_AND_HESSIAN_loop_spec (exp : Expression) (h : Heap)
    (e0 : StackEntry.t) :
  let l := StackEntry.ids e0 in
  length (StackEntry.first e0) = length l ->
  length (StackEntry.second_mixed e0) = length l * length l ->
  forall k : nat,
    k <= length l ->
    let r := fold_left (GRADIENT_AND_HESSIAN_step exp) (take k l) (h, e0, 0) in
    r.2 = k
    /\ r.1.1 = fold_left (fun h it => incr_dependence_level it h) (take k l) h
    /\ length (StackEntry.first r.1.2) = length l
    /\ StackEntry.ids r.1.2 = l
    /\ length (StackEntry.second_mixed r.1.2) = length l * length l
    /\ forall a b : nat,
         a < length l -> b < length l ->
         StackEntry.second_mixed r.1.2 !! (a * length l + b)
         = if decide (a < k /\ b < k)
           then Some (EvaluateDerivative2 exp (row_heap l h (a `max` b))
                        (id (row_heap l h (a `max` b) !!! (l !!! (a `max` b))))
                        (id (row_heap l h (a `max` b) !!! (l !!! (a `min` b)))))
           else StackEntry.second_mixed e0 !! (a * length l + b).
Proof.
  intros l Hfirst Hsm k. induction k as [|k IH]; intros Hk.
  - cbn; repeat split; try done;
      intros a b _ _; case_decide; first [lia|done].
  - specialize (IH ltac:(lia)). cbn zeta in IH |- *.
    rewrite (take_S_r l k (l !!! k)) by (apply list_lookup_lookup_total_lt; lia).
    rewrite fold_left_app.
    destruct (fold_left (GRADIENT_AND_HESSIAN_step exp) (take k l) (h, e0, 0))
      as [[hk ek] c].
    cbn [fst snd] in IH. destruct IH as (-> & -> & Hf & Hi & Hs & Hcells).
    cbn [fold_left GRADIENT_AND_HESSIAN_step fst snd].
    rewrite row_heap_step by lia.
    cbn [StackEntry.ids StackEntry.set_first]. rewrite Hi.
    pose proof (GRADIENT_AND_HESSIAN_inner_spec exp (row_heap l h k)
                  (l !!! k) k l (k - 0) 0
                  (StackEntry.set_first
                     (<[k := EvaluateDerivative exp (row_heap l h k)
                               (id (row_heap l h k !!! (l !!! k)))]>
                        (StackEntry.first ek)) ek)
                  eq_refl ltac:(lia) ltac:(lia)) as Hinner.
    cbn [StackEntry.first StackEntry.second_mixed StackEntry.ids
         StackEntry.set_first drop] in Hinner.
    rewrite length_insert, drop_0 in Hinner.
    destruct (Hinner Hf Hs) as (H1 & H2 & H3 & H4). clear Hinner.
    split; [done|].
    split.
    { unfold row_heap.
      by rewrite (take_S_r l k (l !!! k))
        by (apply list_lookup_lookup_total_lt; lia). }
    split; [by rewrite H1, length_insert|].
    split; [by rewrite H2|]. split; [done|].
    intros a b Ha Hb. rewrite (H4 a b Ha Hb), (Hcells a b Ha Hb).
    repeat case_decide; try done; try lia.
    assert (a `max` b = k) as -> by lia. done.
Qed.

Lemma prepared_entry_first_length (exp : Expression) (gs : GradientStructure) :
  length (StackEntry.first (prepared_entry exp gs))
  = length (StackEntry.ids (prepared_entry exp gs)).
Proof. unfold prepared_entry; cbn -[resize NextIndex]. apply length_resize. Qed.

Lemma GRADIENT_AND_HESSIAN_case_spec (this : Variable_) (exp : Expression)
    (h : Heap) (e : StackEntry.t) :
  length (StackEntry.first e) = length (StackEntry.ids e) ->
  let l := StackEntry.ids e in
  let r := GRADIENT_AND_HESSIAN_case this exp h e in
  StackEntry.ids r.2 = l
  /\ forall i j : nat,
       j <= i < length l ->
       let hi := row_heap l h i in
       let d := EvaluateDerivative2 exp hi (id (hi !!! (l !!! i)))
                  (id (hi !!! (l !!! j))) in
       StackEntry.second_mixed r.2 !! (i * length l + j) = Some d
       /\ StackEntry.second_mixed r.2 !! (j * length l + i) = Some d.
Proof.
  intros Hfirst l r. subst r. unfold GRADIENT_AND_HESSIAN_case.
  cbn [StackEntry.ids StackEntry.set_w StackEntry.set_second_mixed
       StackEntry.second_mixed]. fold l.
  pose proof (GRADIENT_AND_HESSIAN_loop_spec exp h
                (StackEntry.set_second_mixed
                   (resize (length l * length l) 0%R (StackEntry.second_mixed e))
                   (StackEntry.set_w (Some (info this)) e))) as Hloop.
  cbn [StackEntry.ids StackEntry.first StackEntry.second_mixed
       StackEntry.set_w StackEntry.set_second_mixed] in Hloop. fold l in Hloop.
  specialize (Hloop Hfirst ltac:(apply length_resize) (length l) ltac:(lia)).
  rewrite firstn_all in Hloop.
  destruct (fold_left _ _ _) as [[h' e'] k].
  cbn [fst snd] in Hloop |- *.
  destruct Hloop as (_ & _ & _ & Hids & _ & Hcells).
  split; [done|]. intros i j Hij. cbn zeta. split.
  - rewrite (Hcells i j) by lia. case_decide; [|lia].
    rewrite Nat.max_l, Nat.min_r by lia. done.
  - rewrite (Hcells j i) by lia. case_decide; [|lia].
    rewrite Nat.max_r, Nat.min_l by lia. done.
Qed.

Lemma Assign_p_GRADIENT_AND_HESSIAN (this : Variable_) (exp : Expression)
    (h : Heap) (gs : GradientStructure) :
  recording gs = true ->
  derivative_trace_level gs = GRADIENT_AND_HESSIAN ->
  let r := GRADIENT_AND_HESSIAN_case this exp h (prepared_entry exp gs) in
  Assign_p this exp h gs
  = Returned (SetValue this (GetValue exp r.1) r.1)
      (store_entry (NextIndex gs).1 r.2 (NextIndex gs).2).
Proof.
  intros Hrec Hlevel. unfold Assign_p, prepared_entry. rewrite Hrec.
  unfold NextIndex; cbn -[resize GRADIENT_AND_HESSIAN_case]. rewrite Hlevel.
  by destruct (GRADIENT_AND_HESSIAN_case _ _ _ _) as [h' e'].
Qed.

(** C5, as the code has it: at [GRADIENT_AND_HESSIAN] the second partial is
    evaluated for the pairs [j <= i] only, and each value is stored both in
    [second_mixed[i*n + j]] and in the mirrored cell [second_mixed[j*n + i]];
    after the assignment every cell of the [n] by [n] block of the new
    record, the upper triangle included, holds the second partial of its
    pair of leaves. *)
Theorem GRADIENT_AND_HESSIAN_fills_both_triangles (this : Variable_)
    (exp : Expression) (h : Heap) (gs : GradientStructure) :
  recording gs = true ->
  let o := Assign_p this exp h (set_trace_level GRADIENT_AND_HESSIAN gs) in
  let l := StackEntry.ids (prepared_entry exp gs) in
  exists entry : StackEntry.t,
    gradient_stack (outcome_tape o) !! (NextIndex gs).1 = Some entry
    /\ StackEntry.ids entry = l
    /\ forall i j : nat,
         j <= i < length l ->
         let hi := row_heap l h i in
         let d := EvaluateDerivative2 exp hi (id (hi !!! (l !!! i)))
                    (id (hi !!! (l !!! j))) in
         StackEntry.second_mixed entry !! (i * length l + j) = Some d
         /\ StackEntry.second_mixed entry !! (j * length l + i) = Some d.
Proof.
  intros Hrec o l. subst o.
  destruct (NextIndex_slot gs) as (_ & _ & Hlt).
  rewrite (Assign_p_GRADIENT_AND_HESSIAN this exp h
             (set_trace_level GRADIENT_AND_HESSIAN gs)) by done.
  pose proof (GRADIENT_AND_HESSIAN_case_spec this exp h (prepared_entry exp gs)
                (prepared_entry_first_length exp gs)) as Hcase.
  cbn zeta in Hcase. fold l in Hcase.
  change (prepared_entry exp (set_trace_level GRADIENT_AND_HESSIAN gs))
    with (prepared_entry exp gs).
  destruct (GRADIENT_AND_HESSIAN_case this exp h (prepared_entry exp gs))
    as [h' e'].
  cbn [fst snd] in Hcase |- *. destruct Hcase as (Hids & Hcells).
  exists e'. split; [|split].
  - cbn -[NextIndex]. by apply list_lookup_insert_eq.
  - exact Hids.
  - exact Hcells.
Qed.

Lemma GRADIENT_AND_HESSIAN_fills_both_triangles_witness :
  exists entry : StackEntry.t,
    gradient_stack
      (outcome_tape
         (Assign_p (handle 1)
            (Sinh (Add (VariableNode (handle 2)) (VariableNode (handle 3))))
            three_leaves
            (set_trace_level GRADIENT_AND_HESSIAN (fresh_tape GRADIENT))))
      !! 0 = Some entry
    /\ StackEntry.ids entry = [2%positive; 3%positive].
Proof.
  destruct (GRADIENT_AND_HESSIAN_fills_both_triangles (handle 1)
              (Sinh (Add (VariableNode (handle 2)) (VariableNode (handle 3))))
              three_leaves (fresh_tape GRADIENT) eq_refl)
    as (entry & Hentry & Hids & _).
  exists entry. split; [exact Hentry | exact Hids].
Defined.

(** C5 as stated fails: for [v = sinh(x + y)] with [x = 1], [y = 0] on a tape
    with no record yet, [second_mixed] is empty at the [switch] and is sized
    to 2 by 2; the row of [y] then writes the second partial [sinh 1] into
    the cell [0*2 + 1] above the diagonal, which does not keep the value 0 it
    was sized with. *)
Lemma GRADIENT_AND_HESSIAN_upper_triangle_counterexample :
  let exp := Sinh (Add (VariableNode (handle 2)) (VariableNode (handle 3))) in
  let gs := fresh_tape GRADIENT_AND_HESSIAN in
  let o := Assign_p (handle 1) exp three_leaves gs in
  exists entry : StackEntry.t,
    gradient_stack (outcome_tape o) !! 0 = Some entry
    /\ StackEntry.ids entry = [2%positive; 3%positive]
    /\ StackEntry.second_mixed (prepared_entry exp gs) = []
    /\ StackEntry.second_mixed entry !! (0 * 2 + 1) = Some (sinh 1)
    /\ ~ upper_triangle_retained 2
           (StackEntry.second_mixed (prepared_entry exp gs))
           (StackEntry.second_mixed entry).
Proof.
  intros exp gs o. subst o.
  rewrite (Assign_p_GRADIENT_AND_HESSIAN (handle 1) exp three_leaves gs
             eq_refl eq_refl).
  pose proof (GRADIENT_AND_HESSIAN_case_spec (handle 1) exp three_leaves
                (prepared_entry exp gs) (prepared_entry_first_length exp gs))
    as Hcase.
  cbn zeta in Hcase.
  destruct (GRADIENT_AND_HESSIAN_case (handle 1) exp three_leaves
              (prepared_entry exp gs)) as [h' e'].
  cbn [fst snd] in Hcase |- *. destruct Hcase as (Hids & Hcells).
  assert (Hl : StackEntry.ids (prepared_entry exp gs)
               = [2%positive; 3%positive]) by reflexivity.
  rewrite Hl in Hids, Hcells.
  destruct (Hcells 1 0 ltac:(cbn; lia)) as (_ & Hupper).
  assert (Hd : EvaluateDerivative2 exp
                 (row_heap [2%positive; 3%positive] three_leaves 1)
                 (id (row_heap [2%positive; 3%positive] three_leaves 1
                      !!! ([2%positive; 3%positive] !!! 1)))
                 (id (row_heap [2%positive; 3%positive] three_leaves 1
                      !!! ([2%positive; 3%positive] !!! 0)))
               = sinh 1).
  { transitivity (sinh (1 + 0) * (0 + 1) * (1 + 0) + cosh (1 + 0) * (0 + 0))%R;
      [reflexivity|].
    replace (1 + 0)%R with 1%R by lra. ring. }
  rewrite Hd in Hupper. clear Hd Hcells.
  assert (Hpos : (0 < sinh 1)%R).
  { rewrite <- sinh_0. apply sinh_lt. lra. }
  exists e'. split; [reflexivity|]. split; [exact Hids|].
  split; [reflexivity|]. split; [exact Hupper|].
  intros Hkeep. specialize (Hkeep 0 1 ltac:(lia)).
  change (0 * 2 + 1) with (0 * length [2%positive; 3%positive] + 1) in Hkeep.
  rewrite Hupper in Hkeep. cbn in Hkeep. inversion Hkeep as [Hzero].
  lra.
Qed.

(** * Further properties *)

(** ** The sine, tanh and logit transformations *)

Lemma derivable_pt_lim_affine (f : R -> R) (a b x l : R) :
  derivable_pt_lim f x l ->
  derivable_pt_lim (fun y => a + b * f y)%R x (b * l)%R.
Proof.
  intros Hf.
  pose proof (derivable_pt_lim_plus _ _ x _ _ (derivable_pt_lim_const a x)
                (derivable_pt_lim_scal _ b _ _ Hf)) as Hsum.
  replace (b * l)%R with (0 + b * l)%R by ring. exact Hsum.
Qed.

(** X1: for every [val] and all bounds, the sine transformation's
    [DerivativeInternal2External] is the derivative of its
    [Internal2External] with respect to [val]. *)
Theorem Sin_DerivativeInternal2External_correct (val min_ max_ : R) :
  derivable_pt_lim
    (fun x => Internal2External SinParameterTransformation x min_ max_) val
    (DerivativeInternal2External SinParameterTransformation val min_ max_).
Proof.
  cbn.
  apply (derivable_pt_lim_ext
           (fun x => (min_ + / 2 * (max_ - min_))
                     + (/ 2 * (max_ - min_)) * sin x)%R).
  - intros z. ring.
  - replace (/ 2 * ((max_ - min_) * cos val))%R
      with (/ 2 * (max_ - min_) * cos val)%R by ring.
    apply derivable_pt_lim_affine, derivable_pt_lim_sin.
Qed.


(** X2: for distinct bounds and an internal value in [-PI/2, PI/2], mapping
    to the external value and back returns the internal value. *)
Theorem Sin_External2Internal_Internal2External (val min_ max_ : R) :
  min_ <> max_ ->
  (- (PI / 2) <= val <= PI / 2)%R ->
  External2Internal SinParameterTransformation
    (Internal2External SinParameterTransformation val min_ max_) min_ max_
  = val.
Proof.
  intros Hne Hval. cbn.
  replace (2 * (min_ + / 2 * (max_ - min_) * (sin val + 1)) / (max_ - min_)
           - min_ / (max_ - min_) - max_ / (max_ - min_))%R
    with (sin val) by (field; lra).
  by apply asin_sin.
Qed.

Lemma Sin_External2Internal_Internal2External_witness :
  External2Internal SinParameterTransformation
    (Internal2External SinParameterTransformation 0 0 10) 0 10 = 0%R.
Proof.
  apply (Sin_External2Internal_Internal2External 0 0 10); [lra|].
  pose proof PI_RGT_0. lra.
Defined.

Lemma tanh_bounds (x : R) : (-1 < tanh x < 1)%R.
Proof.
  unfold tanh, sinh, cosh. rewrite exp_Ropp.
  pose proof (exp_pos x) as Hp.
  assert (Hi : (0 < / Rtrigo_def.exp x)%R) by (by apply Rinv_0_lt_compat).
  set (n := ((Rtrigo_def.exp x - / Rtrigo_def.exp x) / 2)%R).
  set (d := ((Rtrigo_def.exp x + / Rtrigo_def.exp x) / 2)%R).
  assert (Hd : (0 < d)%R) by (unfold d; lra).
  assert (Hlo : (0 < (n + d) / d)%R)
    by (apply Rdiv_lt_0_compat; [unfold n, d; lra | done]).
  assert (Hhi : (0 < (d - n) / d)%R)
    by (apply Rdiv_lt_0_compat; [unfold n, d; lra | done]).
  replace ((n + d) / d)%R with (n / d + 1)%R in Hlo by (field; lra).
  replace ((d - n) / d)%R with (1 - n / d)%R in Hhi by (field; lra).
  lra.
Qed.

Lemma atanh_tanh (x : R) : atanh (tanh x) = x.
Proof.
  unfold atanh.
  replace ((1 + tanh x) / (1 - tanh x))%R with (Rtrigo_def.exp (x + x)).
  - rewrite ln_exp. field.
  - rewrite exp_plus. unfold tanh, sinh, cosh. rewrite exp_Ropp.
    pose proof (exp_pos x) as Hp.
    assert (Hi : (0 < / Rtrigo_def.exp x)%R) by (by apply Rinv_0_lt_compat).
    field. repeat split; try lra.
    all: nra.
Qed.

(** X3: for distinct bounds, the tanh transformation's [Internal2External]
    undoes its [External2Internal] at every real argument. *)
Theorem Tanh_Internal2External_External2Internal (val min_ max_ : R) :
  min_ <> max_ ->
  Internal2External TanhParameterTransformation
    (External2Internal TanhParameterTransformation val min_ max_) min_ max_
  = val.
Proof.
  intros Hne. cbn.
  replace (2 * (min_ + / 2 * (max_ - min_) * (1 + tanh val) - min_)
           / (max_ - min_) - 1)%R
    with (tanh val) by (field; lra).
  apply atanh_tanh.
Qed.

Lemma Tanh_Internal2External_External2Internal_witness :
  Internal2External TanhParameterTransformation
    (External2Internal TanhParameterTransformation 3 0 10) 0 10 = 3%R.
Proof. apply (Tanh_Internal2External_External2Internal 3 0 10). lra. Defined.

(** X4: for [min < val < max], the tanh transformation's [External2Internal]
    undoes its [Internal2External]; and for [min < max] its
    [External2Internal] sends every real strictly inside the bounds. *)
Theorem Tanh_External2Internal_Internal2External (val x min_ max_ : R) :
  (min_ < val < max_)%R ->
  External2Internal TanhParameterTransformation
    (Internal2External TanhParameterTransformation val min_ max_) min_ max_
  = val
  /\ (min_ < External2Internal TanhParameterTransformation x min_ max_
      < max_)%R.
Proof.
  intros [Hlo Hhi]. cbn. split.
  - assert (Hr : (-1 < 2 * (val - min_) / (max_ - min_) - 1 < 1)%R).
    { assert (H0 : (0 < (val - min_) / (max_ - min_))%R)
        by (apply Rdiv_lt_0_compat; lra).
      assert (H1 : (0 < (max_ - val) / (max_ - min_))%R)
        by (apply Rdiv_lt_0_compat; lra).
      replace ((max_ - val) / (max_ - min_))%R
        with (1 - (val - min_) / (max_ - min_))%R in H1 by (field; lra).
      replace (2 * (val - min_) / (max_ - min_))%R
        with (2 * ((val - min_) / (max_ - min_)))%R by (field; lra).
      lra. }
    rewrite (tanh_atanh _ Hr). field. lra.
  - pose proof (tanh_bounds x) as [Ht1 Ht2]. nra.
Qed.

Lemma Tanh_External2Internal_Internal2External_witness :
  External2Internal TanhParameterTransformation
    (Internal2External TanhParameterTransformation 7 0 10) 0 10 = 7%R
  /\ (0 < External2Internal TanhParameterTransformation 2 0 10 < 10)%R.
Proof. apply (Tanh_External2Internal_Internal2External 7 2 0 10). lra. Defined.

(** X5: for [min < val < max] the logit transformation maps the internal
    image of [val] back to [val]. *)
Theorem Logit_round_trip (val min_ max_ : R) :
  (min_ < val < max_)%R ->
  Internal2External LogitParameterTransformation
    (External2Internal LogitParameterTransformation val min_ max_) min_ max_
  = val.
Proof.
  intros [Hlo Hhi]. cbn zeta beta iota delta
    [Internal2External External2Internal LogitParameterTransformation].
  set (p := ((val - min_) / (max_ - min_))%R).
  assert (Hp0 : (0 < p)%R) by (apply Rdiv_lt_0_compat; lra).
  assert (Hp1 : (0 < 1 - p)%R).
  { replace (1 - p)%R with ((max_ - val) / (max_ - min_))%R
      by (unfold p; field; lra).
    apply Rdiv_lt_0_compat; lra. }
  rewrite exp_ln by (apply Rdiv_lt_0_compat; lra).
  replace (p / (1 - p) / (1 + p / (1 - p)))%R with p by (field; lra).
  unfold p. field. lra.
Qed.

Lemma Logit_round_trip_witness :
  Internal2External LogitParameterTransformation
    (External2Internal LogitParameterTransformation 7 0 10) 0 10 = 7%R.
Proof. apply (Logit_round_trip 7 0 10). lra. Defined.

(** X6: for [min < max] the logit transformation's [External2Internal]
    undoes its [Internal2External] at every real argument, and its
    [Internal2External] lands strictly inside the bounds. *)
Theorem Logit_External2Internal_Internal2External (val min_ max_ : R) :
  (min_ < max_)%R ->
  External2Internal LogitParameterTransformation
    (Internal2External LogitParameterTransformation val min_ max_) min_ max_
  = val
  /\ (min_ < Internal2External LogitParameterTransformation val min_ max_
      < max_)%R.
Proof.
  intros Hlt. cbn zeta beta iota delta
    [Internal2External External2Internal LogitParameterTransformation].
  pose proof (exp_pos val) as He.
  set (E := Rtrigo_def.exp val) in *.
  assert (Hp0 : (0 < E / (1 + E))%R) by (apply Rdiv_lt_0_compat; lra).
  assert (Hp1 : (0 < 1 - E / (1 + E))%R).
  { replace (1 - E / (1 + E))%R with (1 / (1 + E))%R by (field; lra).
    apply Rdiv_lt_0_compat; lra. }
  split.
  - replace ((E / (1 + E) * (max_ - min_) + min_ - min_) / (max_ - min_))%R
      with (E / (1 + E))%R by (field; lra).
    replace (E / (1 + E) / (1 - E / (1 + E)))%R with E by (field; lra).
    apply ln_exp.
  - nra.
Qed.

Lemma Logit_External2Internal_Internal2External_witness :
  External2Internal LogitParameterTransformation
    (Internal2External LogitParameterTransformation 3 0 10) 0 10 = 3%R
  /\ (0 < Internal2External LogitParameterTransformation 3 0 10 < 10)%R.
Proof.
  apply (Logit_External2Internal_Internal2External 3 0 10). lra.
Defined.

(** X7: for every [val] and all bounds, the logit transformation's
    [DerivativeInternal2External] is the derivative of its
    [Internal2External] with respect to [val]. *)
Theorem Logit_DerivativeInternal2External_correct (val min_ max_ : R) :
  derivable_pt_lim
    (fun x => Internal2External LogitParameterTransformation x min_ max_) val
    (DerivativeInternal2External LogitParameterTransformation val min_ max_).
Proof.
  cbn zeta beta iota delta
    [Internal2External DerivativeInternal2External
     LogitParameterTransformation].
  unfold M_E. rewrite ln_exp.
  pose proof (exp_pos val) as He.
  assert (Hq : derivable_pt_lim
                 (div_fct Rtrigo_def.exp (plus_fct (fct_cte 1) Rtrigo_def.exp))
                 val
                 ((Rtrigo_def.exp val * (1 + Rtrigo_def.exp val)
                   - (0 + Rtrigo_def.exp val) * Rtrigo_def.exp val)
                  / Rsqr (1 + Rtrigo_def.exp val))%R).
  { apply (derivable_pt_lim_div Rtrigo_def.exp
             (plus_fct (fct_cte 1) Rtrigo_def.exp) val
             (Rtrigo_def.exp val) (0 + Rtrigo_def.exp val)%R).
    - apply derivable_pt_lim_exp.
    - apply derivable_pt_lim_plus;
        [apply derivable_pt_lim_const | apply derivable_pt_lim_exp].
    - unfold plus_fct, fct_cte. lra. }
  pose proof (derivable_pt_lim_affine _ min_ (max_ - min_) _ _ Hq) as Ha.
  apply (derivable_pt_lim_ext _ _ _ _
           (fun z => eq_sym (eq_trans
              (Rplus_comm _ _) (f_equal (Rplus min_) (Rmult_comm _ _))))) in Ha.
  replace (Rtrigo_def.exp (2 * val)) with
    (Rtrigo_def.exp val * Rtrigo_def.exp val)%R
    by (rewrite <- exp_plus; f_equal; ring).
  replace (Rtrigo_def.exp val * 1 * (max_ - min_) / (Rtrigo_def.exp val + 1)
           - Rtrigo_def.exp val * Rtrigo_def.exp val * 1 * (max_ - min_)
             / (Rtrigo_def.exp val + 1) ^ 2)%R
    with ((max_ - min_)
          * ((Rtrigo_def.exp val * (1 + Rtrigo_def.exp val)
              - (0 + Rtrigo_def.exp val) * Rtrigo_def.exp val)
             / Rsqr (1 + Rtrigo_def.exp val)))%R
    by (unfold Rsqr; field; lra).
  exact Ha.
Qed.

(** ** Values and bounds *)

Lemma SetValue_bounded_value (v : Variable_) (value : R) (h : Heap) :
  bounded_m v = true ->
  (min_boundary_m v <= max_boundary_m v)%R ->
  vvalue (SetValue v value h !!! info v)
  = Rmax (min_boundary_m v) (Rmin (max_boundary_m v) value).
Proof.
  intros Hb Hle. unfold SetValue. rewrite Hb. cbn [negb].
  destruct (decide _) as [Hne|_]; [by destruct Hne|].
  destruct (decide _) as [Hlt|Hge].
  - rewrite lookup_total_update_info. cbn.
    rewrite (Rmin_right _ value) by lra. by rewrite Rmax_left by lra.
  - destruct (decide _) as [Hgt|Hle'].
    + rewrite lookup_total_update_info. cbn.
      rewrite (Rmin_left _ value) by lra. by rewrite Rmax_right by lra.
    + rewrite lookup_total_update_info. cbn.
      rewrite (Rmin_right _ value) by lra. by rewrite Rmax_right by lra.
Qed.

(** X8: on a bounded variable with [min <= max], [SetValue] stores the value
    clamped to the bounds: the stored value lies in [min, max], it is the
    given one when that lies in [min, max], [min] when it is below and [max]
    when it is above.  On an unbounded variable it stores the given value. *)
Theorem SetValue_clamps (v : Variable_) (value : R) (h : Heap) :
  (min_boundary_m v <= max_boundary_m v)%R ->
  let stored := vvalue (SetValue v value h !!! info v) in
  (bounded_m v = false -> stored = value)
  /\ (bounded_m v = true ->
      (min_boundary_m v <= stored <= max_boundary_m v)%R
      /\ ((min_boundary_m v <= value <= max_boundary_m v)%R -> stored = value)
      /\ ((value < min_boundary_m v)%R -> stored = min_boundary_m v)
      /\ ((value > max_boundary_m v)%R -> stored = max_boundary_m v)).
Proof.
  intros Hle stored. subst stored. split.
  - intros Hb. unfold SetValue. rewrite Hb. cbn [negb].
    by rewrite lookup_total_update_info.
  - intros Hb. rewrite (SetValue_bounded_value v value h Hb Hle).
    repeat split.
    + apply Rmax_l.
    + apply Rmax_lub; [done | apply Rmin_l].
    + intros [H1 H2]. rewrite Rmin_right by done. by rewrite Rmax_right.
    + intros Hlt. rewrite Rmin_right by lra. rewrite Rmax_left by lra. done.
    + intros Hgt. rewrite Rmin_left by lra. by rewrite Rmax_right.
Qed.

Lemma SetValue_clamps_witness :
  vvalue (SetValue (SetMaxBoundary 10 (set_bounded_m true (handle 1))) 12
            two_leaves !!! 1%positive) = 10%R.
Proof.
  refine (proj2 (proj2 (proj2 (proj2
            (SetValue_clamps (SetMaxBoundary 10 (set_bounded_m true (handle 1)))
               12 two_leaves _) eq_refl))) _); cbn; lra.
Defined.

(** X9: [SetValue] writes the [vvalue] of the handle's own info and nothing
    else: every other info is the same object afterwards, and the handle's
    info differs from what it was in [vvalue] at most. *)
Theorem SetValue_writes_only_vvalue (v : Variable_) (value : R) (h : Heap)
    (p : positive) :
  (p <> info v -> SetValue v value h !!! p = h !!! p)
  /\ set_vvalue 0 (SetValue v value h !!! info v)
     = set_vvalue 0 (h !!! info v).
Proof.
  destruct (SetValue_shape v value h) as [y ->]. split.
  - intros Hne. by rewrite lookup_total_update_info_ne.
  - by rewrite lookup_total_update_info.
Qed.

(** X10: after [SetBounds(min, max)] with [min <= max] the value of the
    variable lies within the bounds, whatever it was before. *)
Theorem SetBounds_value_in_bounds (min_boundary max_boundary : R)
    (v : Variable_) (h : Heap) :
  (min_boundary <= max_boundary)%R ->
  (min_boundary
   <= vvalue ((SetBounds min_boundary max_boundary v h).2 !!! info v)
   <= max_boundary)%R.
Proof.
  intros Hle.
  destruct (Rlt_dec (vvalue (h !!! info v)) min_boundary) as [Hlo|Hlo];
    [|destruct (Rgt_dec (vvalue (h !!! info v)) max_boundary) as [Hhi|Hhi];
      [|destruct (Req_dec_T (vvalue (h !!! info v)) 0) as [Hz|Hz]]].
  1-3: rewrite SetBounds_test by (unfold needs_reset; tauto);
    cbn [snd];
    destruct (double_add min_boundary max_boundary) as [s| |];
    cbn [double_halve SetValue_double];
    [ pose proof (SetValue_bounded_value
                    (SetMaxBoundary max_boundary
                       (SetMinBoundary min_boundary (set_bounded_m true v)))
                    (s / 2) h eq_refl Hle) as Hv;
      cbn [info min_boundary_m max_boundary_m SetMaxBoundary SetMinBoundary
           set_bounded_m] in Hv; rewrite Hv;
      (split; [apply Rmax_l | apply Rmax_lub; [done | apply Rmin_l]])
    | rewrite lookup_total_update_info; cbn; lra
    | rewrite lookup_total_update_info; cbn; lra ].
  rewrite SetBounds_no_test by (unfold needs_reset; lra). cbn [snd]. lra.
Qed.

Lemma SetBounds_value_in_bounds_witness :
  (2 <= vvalue ((SetBounds 2 6 (handle 1) two_leaves).2 !!! 1%positive) <= 6)%R.
Proof. apply (SetBounds_value_in_bounds 2 6 (handle 1) two_leaves). lra. Defined.



(** X12: on a bounded variable whose value lies within its bounds,
    [UpdateValue(GetInternalValue())] restores the value whenever the
    attached transformation maps the internal image of that value back to
    it; on an unbounded variable it always does. *)
Theorem UpdateValue_GetInternalValue (v : Variable_) (h : Heap) :
  let x := vvalue (h !!! info v) in
  (bounded_m v = true ->
   (min_boundary_m v <= x <= max_boundary_m v)%R
   /\ Internal2External (transformation v)
        (External2Internal (transformation v) x
           (min_boundary_m v) (max_boundary_m v))
        (min_boundary_m v) (max_boundary_m v) = x) ->
  vvalue (UpdateValue v (GetInternalValue v h) h !!! info v) = x.
Proof.
  intros x Hround. unfold UpdateValue, GetInternalValue.
  destruct (bounded_m v) eqn:Hb.
  - destruct (Hround eq_refl) as [[Hlo Hhi] Hrt].
    unfold GetMinBoundary, GetMaxBoundary. cbn [GetValue VariableNode].
    fold x. rewrite Hrt.
    rewrite (SetValue_bounded_value v x h Hb) by lra.
    rewrite Rmin_right by done. by rewrite Rmax_right.
  - unfold SetValue. rewrite Hb. cbn [negb].
    by rewrite lookup_total_update_info.
Qed.

Lemma UpdateValue_GetInternalValue_witness :
  vvalue
    (UpdateValue (SetMaxBoundary 10 (set_bounded_m true (handle 2)))
       (GetInternalValue (SetMaxBoundary 10 (set_bounded_m true (handle 2)))
          two_leaves)
       two_leaves !!! 2%positive)
  = 3%R.
Proof.
  apply (UpdateValue_GetInternalValue
           (SetMaxBoundary 10 (set_bounded_m true (handle 2))) two_leaves).
  intros _.
  change (vvalue (two_leaves
                  !!! info (SetMaxBoundary 10 (set_bounded_m true (handle 2)))))
    with 3%R.
  cbn. split; [lra|].
  replace (2 * 3 / (10 - 0) - 0 / (10 - 0) - 10 / (10 - 0))%R
    with (- (2 / 5))%R by field.
  rewrite sin_asin by lra. field.
Defined.

(** ** The derivative overloads are derivatives *)

Lemma derivable_pt_lim_sinh_comp (G : R -> R) (x0 l : R) :
  derivable_pt_lim G x0 l ->
  derivable_pt_lim (fun x => sinh (G x)) x0 (cosh (G x0) * l)%R.
Proof.
  intros HG.
  exact (derivable_pt_lim_comp _ _ _ _ _ HG (derivable_pt_lim_sinh (G x0))).
Qed.

Lemma derivable_pt_lim_cosh_comp (G : R -> R) (x0 l : R) :
  derivable_pt_lim G x0 l ->
  derivable_pt_lim (fun x => cosh (G x)) x0 (sinh (G x0) * l)%R.
Proof.
  intros HG.
  exact (derivable_pt_lim_comp _ _ _ _ _ HG (derivable_pt_lim_cosh (G x0))).
Qed.

Lemma derivable_pt_lim_mult3 (f1 f2 f3 : R -> R) (x0 l1 l2 l3 : R) :
  derivable_pt_lim f1 x0 l1 ->
  derivable_pt_lim f2 x0 l2 ->
  derivable_pt_lim f3 x0 l3 ->
  derivable_pt_lim (fun x => f1 x * f2 x * f3 x)%R x0
    (l1 * f2 x0 * f3 x0 + f1 x0 * l2 * f3 x0 + f1 x0 * f2 x0 * l3)%R.
Proof.
  intros H1 H2 H3.
  pose proof (derivable_pt_lim_mult _ _ _ _ _
                (derivable_pt_lim_mult _ _ _ _ _ H1 H2) H3) as Hm.
  unfold mult_fct in Hm.
  replace (l1 * f2 x0 * f3 x0 + f1 x0 * l2 * f3 x0 + f1 x0 * f2 x0 * l3)%R
    with ((l1 * f2 x0 + f1 x0 * l2) * f3 x0 + f1 x0 * f2 x0 * l3)%R by ring.
  exact Hm.
Qed.

(** X13: if the value and the partials of the inner expression are
    derivatives of one another along a family of heaps, so are those of the
    [Sinh] node over it: [EvaluateDerivative(c)] is the derivative of
    [GetValue], [EvaluateDerivative(a, c)] that of [EvaluateDerivative(a)],
    and [EvaluateDerivative(a, b, c)] that of [EvaluateDerivative(a, b)]. *)
Theorem Sinh_derivatives_along (g : Expression) (H : R -> Heap) (x0 : R)
    (c : N) :
  derivatives_along g H x0 c -> derivatives_along (Sinh g) H x0 c.
Proof.
  intros (H0 & H1 & H2). split; [|split].
  - cbn [GetValue EvaluateDerivative Sinh].
    rewrite Rmult_comm. by apply derivable_pt_lim_sinh_comp.
  - intros a. cbn [EvaluateDerivative EvaluateDerivative2 Sinh].
    pose proof (derivable_pt_lim_mult _ _ _ _ _ (H1 a)
                  (derivable_pt_lim_cosh_comp _ _ _ H0)) as Hm.
    unfold mult_fct in Hm.
    replace (sinh (GetValue g (H x0)) * EvaluateDerivative g (H x0) a
               * EvaluateDerivative g (H x0) c
             + cosh (GetValue g (H x0)) * EvaluateDerivative2 g (H x0) a c)%R
      with (EvaluateDerivative2 g (H x0) a c * cosh (GetValue g (H x0))
            + EvaluateDerivative g (H x0) a
              * (sinh (GetValue g (H x0)) * EvaluateDerivative g (H x0) c))%R
      by ring.
    exact Hm.
  - intros a b. cbn [EvaluateDerivative2 EvaluateDerivative3 Sinh].
    pose proof (derivable_pt_lim_plus _ _ _ _ _
                  (derivable_pt_lim_mult3 _ _ _ _ _ _ _
                     (derivable_pt_lim_sinh_comp _ _ _ H0) (H1 a) (H1 b))
                  (derivable_pt_lim_mult _ _ _ _ _
                     (derivable_pt_lim_cosh_comp _ _ _ H0) (H2 a b))) as Hp.
    unfold plus_fct, mult_fct in Hp.
    match goal with
    | |- derivable_pt_lim _ _ ?l =>
        match type of Hp with
        | derivable_pt_lim _ _ ?l' => replace l with l' by ring
        end
    end.
    exact Hp.
Qed.

(** X14: the same for a [Cosh] node.  Its [GetValue] returns the hyperbolic
    cosine of the inner value taken when the node was built, so the first
    order is stated for the node built in the heap it is evaluated in; the
    second and third order hold for any stored value. *)
Theorem Cosh_derivatives_along (g : Expression) (value_m : R)
    (H : R -> Heap) (x0 : R) (c : N) :
  derivatives_along g H x0 c ->
  derivable_pt_lim (fun x => GetValue (Cosh_new (H x) g) (H x)) x0
    (EvaluateDerivative (Cosh g value_m) (H x0) c)
  /\ (forall a : N,
        derivable_pt_lim (fun x => EvaluateDerivative (Cosh g value_m) (H x) a)
          x0 (EvaluateDerivative2 (Cosh g value_m) (H x0) a c))
  /\ (forall a b : N,
        derivable_pt_lim
          (fun x => EvaluateDerivative2 (Cosh g value_m) (H x) a b) x0
          (EvaluateDerivative3 (Cosh g value_m) (H x0) a b c)).
Proof.
  intros (H0 & H1 & H2). split; [|split].
  - cbn [GetValue EvaluateDerivative Cosh Cosh_new].
    rewrite Rmult_comm. by apply derivable_pt_lim_cosh_comp.
  - intros a. cbn [EvaluateDerivative EvaluateDerivative2 Cosh].
    pose proof (derivable_pt_lim_mult _ _ _ _ _ (H1 a)
                  (derivable_pt_lim_sinh_comp _ _ _ H0)) as Hm.
    unfold mult_fct in Hm.
    match goal with
    | |- derivable_pt_lim _ _ ?l =>
        match type of Hm with
        | derivable_pt_lim _ _ ?l' => replace l with l' by ring
        end
    end.
    exact Hm.
  - intros a b. cbn [EvaluateDerivative2 EvaluateDerivative3 Cosh].
    pose proof (derivable_pt_lim_plus _ _ _ _ _
                  (derivable_pt_lim_mult3 _ _ _ _ _ _ _
                     (derivable_pt_lim_cosh_comp _ _ _ H0) (H1 a) (H1 b))
                  (derivable_pt_lim_mult _ _ _ _ _
                     (derivable_pt_lim_sinh_comp _ _ _ H0) (H2 a b))) as Hp.
    unfold plus_fct, mult_fct in Hp.
    match goal with
    | |- derivable_pt_lim _ _ ?l =>
        match type of Hp with
        | derivable_pt_lim _ _ ?l' => replace l with l' by ring
        end
    end.
    exact Hp.
Qed.

Lemma leaf_id_at_value (p q : positive) (h : Heap) (x : R) :
  id (at_value p h x !!! q) = id (h !!! q).
Proof.
  unfold at_value. destruct (decide (p = q)) as [->|Hne].
  - by rewrite lookup_total_update_info.
  - by rewrite lookup_total_update_info_ne.
Qed.

Lemma leaf_value_at_value (p q : positive) (h : Heap) (x : R) :
  vvalue (at_value p h x !!! q)
  = if decide (q = p) then x else vvalue (h !!! q).
Proof.
  unfold at_value. case_decide as Hq.
  - subst q. by rewrite lookup_total_update_info.
  - by rewrite lookup_total_update_info_ne.
Qed.

(** A leaf along the heaps that differ in the value of the leaf at [p]: its
    three orders fit together when it is that leaf or carries another id. *)
Lemma leaf_derivatives_along (v : Variable_) (p : positive) (h : Heap)
    (x0 : R) :
  info v = p \/ id (h !!! info v) <> id (h !!! p) ->
  derivatives_along (VariableNode v) (at_value p h) x0 (id (h !!! p)).
Proof.
  intros Hid. split; [|split].
  - cbn [GetValue EvaluateDerivative VariableNode].
    rewrite leaf_id_at_value.
    apply (derivable_pt_lim_ext
             (fun x => if decide (info v = p) then x else vvalue (h !!! info v))).
    { intros z. by rewrite leaf_value_at_value. }
    destruct (decide (info v = p)) as [->|Hne].
    + rewrite N.eqb_refl. apply derivable_pt_lim_id.
    + destruct Hid as [?|Hid]; [done|].
      apply N.eqb_neq in Hid. rewrite Hid. apply derivable_pt_lim_const.
  - intros a. cbn [EvaluateDerivative EvaluateDerivative2 VariableNode].
    apply (derivable_pt_lim_ext
             (fct_cte (if (id (h !!! info v) =? a)%N then 1%R else 0%R))).
    { intros z. unfold fct_cte. by rewrite leaf_id_at_value. }
    apply derivable_pt_lim_const.
  - intros a b. cbn [EvaluateDerivative2 EvaluateDerivative3 VariableNode].
    apply (derivable_pt_lim_const 0).
Qed.

Lemma Sinh_derivatives_along_witness :
  derivatives_along (Sinh (VariableNode (handle 2)))
    (at_value 2 two_leaves) 3 (id (two_leaves !!! 2%positive)).
Proof.
  apply (Sinh_derivatives_along (VariableNode (handle 2))
           (at_value 2 two_leaves) 3 (id (two_leaves !!! 2%positive))).
  apply leaf_derivatives_along. by left.
Defined.

Lemma Cosh_derivatives_along_witness :
  derivable_pt_lim
    (fun x => GetValue (Cosh_new (at_value 2 two_leaves x)
                          (VariableNode (handle 2)))
                (at_value 2 two_leaves x)) 3
    (EvaluateDerivative (Cosh (VariableNode (handle 2)) 0)
       (at_value 2 two_leaves 3) (id (two_leaves !!! 2%positive))).
Proof.
  refine (proj1 (Cosh_derivatives_along (VariableNode (handle 2)) 0
                   (at_value 2 two_leaves) 3 (id (two_leaves !!! 2%positive))
                   _)).
  apply leaf_derivatives_along. by left.
Defined.

(** X15: for a leaf [v] and the leaf at [p], the value of [v] along the heaps
    that differ in the value at [p] has derivative 1 when [v] is that leaf
    and 0 otherwise; [EvaluateDerivative], which compares ids, returns that
    derivative exactly when [v] is that leaf or the two infos carry
    different ids. *)
Theorem VariableNode_derivative_by_id (v : Variable_) (p : positive)
    (h : Heap) (x0 : R) :
  derivable_pt_lim (fun x => GetValue (VariableNode v) (at_value p h x)) x0
    (if decide (info v = p) then 1%R else 0%R)
  /\ (EvaluateDerivative (VariableNode v) (at_value p h x0) (id (h !!! p))
      = (if decide (info v = p) then 1%R else 0%R)
      <-> (info v = p \/ id (h !!! info v) <> id (h !!! p))).
Proof.
  split.
  - cbn [GetValue VariableNode].
    apply (derivable_pt_lim_ext
             (fun x => if decide (info v = p) then x else vvalue (h !!! info v))).
    { intros z. by rewrite leaf_value_at_value. }
    case_decide; [apply derivable_pt_lim_id | apply derivable_pt_lim_const].
  - cbn [EvaluateDerivative VariableNode]. rewrite leaf_id_at_value.
    destruct (decide (info v = p)) as [->|Hne].
    + rewrite N.eqb_refl. split; [by left | done].
    + destruct (N.eqb_spec (id (h !!! info v)) (id (h !!! p))) as [He|He].
      * split; [lra | intros [?|?]; done].
      * split; [by right | done].
Qed.

(** X16: symmetry of the second and third partials in the leaf ids is
    handed on by [Sinh] and [Cosh]: when the inner expression has it, the
    node has it. *)
Theorem hyperbolic_symmetric_closed (g : Expression) (value_m : R)
    (h : Heap) :
  symmetric_derivatives g h ->
  symmetric_derivatives (Sinh g) h
  /\ symmetric_derivatives (Cosh g value_m) h.
Proof.
  intros [H2 H3]. split; split.
  - intros a b. cbn. rewrite (H2 a b). ring.
  - intros a b c a' b' c' HP. cbn. rewrite (H3 _ _ _ _ _ _ HP).
    apply perm3_cases in HP.
    destruct HP as [(-> & -> & ->)|[(-> & -> & ->)|[(-> & -> & ->)|
                   [(-> & -> & ->)|[(-> & -> & ->)|(-> & -> & ->)]]]]];
      rewrite ?(H2 b a), ?(H2 c a), ?(H2 c b); ring.
  - intros a b. cbn. rewrite (H2 a b). ring.
  - intros a b c a' b' c' HP. cbn. rewrite (H3 _ _ _ _ _ _ HP).
    apply perm3_cases in HP.
    destruct HP as [(-> & -> & ->)|[(-> & -> & ->)|[(-> & -> & ->)|
                   [(-> & -> & ->)|[(-> & -> & ->)|(-> & -> & ->)]]]]];
      rewrite ?(H2 b a), ?(H2 c a), ?(H2 c b); ring.
Qed.

Lemma hyperbolic_symmetric_closed_witness :
  symmetric_derivatives (Sinh (VariableNode (handle 2))) two_leaves
  /\ symmetric_derivatives (Cosh (VariableNode (handle 2)) 0) two_leaves.
Proof.
  apply (hyperbolic_symmetric_closed (VariableNode (handle 2)) 0 two_leaves).
  apply VariableNode_symmetric.
Defined.

(** ** The record of an assignment *)

(** Induction over a loop that walks a list front to back. *)
Lemma fold_left_take_ind {A St : Type} `{!Inhabited A} (f : St -> A -> St)
    (l : list A) (P : nat -> St -> Prop) (s0 : St) :
  P 0 s0 ->
  (forall (k : nat) (s : St),
     k < length l -> P k s -> P (S k) (f s (l !!! k))) ->
  forall k : nat, k <= length l -> P k (fold_left f (take k l) s0).
Proof.
  intros H0 Hstep k. induction k as [|k IH]; intros Hk; [done|].
  rewrite (take_S_r l k (l !!! k)) by (apply list_lookup_lookup_total_lt; lia).
  rewrite fold_left_app. cbn [fold_left]. apply Hstep; [lia|]. apply IH. lia.
Qed.

Lemma fold_left_ind_all {A St : Type} `{!Inhabited A} (f : St -> A -> St)
    (l : list A) (P : nat -> St -> Prop) (s0 : St) :
  P 0 s0 ->
  (forall (k : nat) (s : St),
     k < length l -> P k s -> P (S k) (f s (l !!! k))) ->
  P (length l) (fold_left f l s0).
Proof.
  intros H0 Hstep.
  pose proof (fold_left_take_ind f l P s0 H0 Hstep (length l) (le_n _)) as HP.
  by rewrite firstn_all in HP.
Qed.

(** The loop of [GRADIENT] over [l]: slot [i] of [first] receives the first
    partial in the id of the [i]-th leaf. *)
Lemma GRADIENT_loop_spec (exp : Expression) (h : Heap) (l : list positive)
    (e0 : StackEntry.t) :
  length (StackEntry.first e0) = length l ->
  let r := fold_left (GRADIENT_step exp h) l (e0, 0) in
  StackEntry.w r.1 = StackEntry.w e0
  /\ StackEntry.ids r.1 = StackEntry.ids e0
  /\ length (StackEntry.first r.1) = length l
  /\ forall i : nat,
       i < length l ->
       StackEntry.first r.1 !! i
       = Some (EvaluateDerivative exp h (id (h !!! (l !!! i)))).
Proof.
  intros Hlen.
  set (P := fun (k : nat) (s : StackEntry.t * nat) =>
       s.2 = k
       /\ StackEntry.w s.1 = StackEntry.w e0
       /\ StackEntry.ids s.1 = StackEntry.ids e0
       /\ length (StackEntry.first s.1) = length l
       /\ forall i : nat,
            i < k ->
            StackEntry.first s.1 !! i
            = Some (EvaluateDerivative exp h (id (h !!! (l !!! i))))).
  assert (Hind : P (length l) (fold_left (GRADIENT_step exp h) l (e0, 0))).
  { apply (fold_left_ind_all (GRADIENT_step exp h) l P); unfold P.
    - cbn. repeat split; try done. intros i Hi. lia.
    - intros k [e j] Hk (Hj & Hw & Hi & Hl & Hf).
      cbn [fst snd] in *. subst j.
      cbn. rewrite length_insert. repeat split; try done.
      intros i Hi'. destruct (decide (i = k)) as [->|Hne].
      + apply list_lookup_insert_eq. lia.
      + rewrite list_lookup_insert_ne by done. apply Hf. lia. }
  unfold P in Hind. cbn zeta. destruct Hind as (_ & Hw & Hi & Hl & Hf).
  repeat split; try done.
Qed.

(** The loop of [FIRST_ORDER] does to the record what that of [GRADIENT]
    does. *)
Lemma FIRST_ORDER_loop_entry (exp : Expression) (h : Heap)
    (l : list positive) :
  forall (gs : GradientStructure) (e : StackEntry.t) (i : nat),
    (fold_left (FIRST_ORDER_step exp h) l (gs, e, i)).1.2
    = (fold_left (GRADIENT_step exp h) l (e, i)).1.
Proof.
  induction l as [|x l IH]; intros gs e i; [done|].
  cbn [fold_left]. unfold FIRST_ORDER_step at 2, GRADIENT_step at 2.
  apply IH.
Qed.

(** X17: a recording assignment at [FIRST_ORDER] or at [GRADIENT] stores a
    record whose [w] is the assigned variable's info, whose [first] is as
    long as its [ids], and whose [first[i]] is the first partial of the
    expression in the id of the [i]-th leaf, evaluated in the heap the
    assignment started from. *)
Theorem gradient_row_recorded (this : Variable_) (exp : Expression)
    (h : Heap) (gs : GradientStructure) (level : DerivativeTraceLevel) :
  recording gs = true ->
  level = FIRST_ORDER \/ level = GRADIENT ->
  let o := Assign_p this exp h (set_trace_level level gs) in
  let l := StackEntry.ids (prepared_entry exp gs) in
  exists entry : StackEntry.t,
    gradient_stack (outcome_tape o) !! (NextIndex gs).1 = Some entry
    /\ StackEntry.w entry = Some (info this)
    /\ StackEntry.ids entry = l
    /\ length (StackEntry.first entry) = length l
    /\ forall i : nat,
         i < length l ->
         StackEntry.first entry !! i
         = Some (EvaluateDerivative exp h (id (h !!! (l !!! i)))).
Proof.
  intros Hrec Hlevel o l. subst o.
  destruct (NextIndex_slot gs) as (_ & _ & Hlt).
  pose proof (GRADIENT_loop_spec exp h l
                (StackEntry.set_w (Some (info this)) (prepared_entry exp gs))
                (prepared_entry_first_length exp gs)) as Hloop.
  cbn zeta in Hloop.
  destruct Hlevel as [-> | ->].
  - rewrite (Assign_p_FIRST_ORDER this exp h (set_trace_level FIRST_ORDER gs))
      by done.
    change (prepared_entry exp (set_trace_level FIRST_ORDER gs))
      with (prepared_entry exp gs).
    change (NextIndex (set_trace_level FIRST_ORDER gs)).1
      with (NextIndex gs).1.
    fold l.
    pose proof (FIRST_ORDER_loop_storage exp h l
                  (NextIndex (set_trace_level FIRST_ORDER gs)).2
                  (StackEntry.set_w (Some (info this)) (prepared_entry exp gs))
                  0) as (Hs & _ & _).
    pose proof (FIRST_ORDER_loop_entry exp h l
                  (NextIndex (set_trace_level FIRST_ORDER gs)).2
                  (StackEntry.set_w (Some (info this)) (prepared_entry exp gs))
                  0) as He.
    destruct (fold_left (FIRST_ORDER_step exp h) l _) as [[g' e'] k'].
    cbn [fst snd] in Hs, He. subst e'.
    eexists. split.
    + cbn [outcome_tape store_entry gradient_stack set_gradient_stack fst snd].
      rewrite Hs. by apply list_lookup_insert_eq.
    + exact Hloop.
  - rewrite (Assign_p_GRADIENT this exp h (set_trace_level GRADIENT gs))
      by done.
    change (prepared_entry exp (set_trace_level GRADIENT gs))
      with (prepared_entry exp gs).
    fold l. eexists. split.
    + cbn [outcome_tape store_entry gradient_stack set_gradient_stack].
      by apply list_lookup_insert_eq.
    + exact Hloop.
Qed.

Lemma gradient_row_recorded_witness :
  exists entry : StackEntry.t,
    gradient_stack
      (outcome_tape
         (Assign_p (handle 1) (Sinh (VariableNode (handle 2))) two_leaves
            (set_trace_level GRADIENT (fresh_tape GRADIENT))))
      !! 0 = Some entry
    /\ StackEntry.w entry = Some 1%positive
    /\ StackEntry.ids entry = [2%positive]
    /\ length (StackEntry.first entry) = 1.
Proof.
  destruct (gradient_row_recorded (handle 1) (Sinh (VariableNode (handle 2)))
              two_leaves (fresh_tape GRADIENT) GRADIENT eq_refl
              (or_intror eq_refl))
    as (entry & H1 & H2 & H3 & H4 & _).
  exists entry. by repeat split.
Defined.

(** X18: with recording off, or at [FIRST_ORDER] or [GRADIENT], an
    assignment changes no info but the assigned variable's; an unbounded
    variable takes the value the expression has in the heap the assignment
    started from (so [v = sinh(v)] reads the old [v]); with recording off
    the tape is left as it is. *)
Theorem assignment_evaluates_then_stores (this : Variable_)
    (exp : Expression) (h : Heap) (gs : GradientStructure) :
  recording gs = false \/ derivative_trace_level gs = FIRST_ORDER
  \/ derivative_trace_level gs = GRADIENT ->
  let o := Assign_p this exp h gs in
  (recording gs = false -> outcome_tape o = gs)
  /\ (bounded_m this = false ->
      vvalue (outcome_heap o !!! info this) = GetValue exp h)
  /\ (forall p : positive, p <> info this -> outcome_heap o !!! p = h !!! p).
Proof.
  intros Hcase o.
  assert (Hheap : outcome_heap o = SetValue this (GetValue exp h) h).
  { subst o. destruct (recording gs) eqn:Hrec.
    - destruct Hcase as [?|[Hl|Hl]]; [done| |].
      + by apply Assign_p_FIRST_ORDER_heap.
      + by rewrite Assign_p_GRADIENT.
    - unfold Assign_p. by rewrite Hrec. }
  rewrite Hheap. split; [|split].
  - intros Hrec. subst o. unfold Assign_p. by rewrite Hrec.
  - intros Hb. unfold SetValue. rewrite Hb. cbn [negb].
    by rewrite lookup_total_update_info.
  - intros p Hp. destruct (SetValue_shape this (GetValue exp h) h) as [y ->].
    by rewrite lookup_total_update_info_ne.
Qed.

Lemma assignment_evaluates_then_stores_witness :
  vvalue
    (outcome_heap
       (Assign_p (handle 2) (Sinh (VariableNode (handle 2))) two_leaves
          (fresh_tape GRADIENT)) !!! 2%positive)
  = GetValue (Sinh (VariableNode (handle 2))) two_leaves.
Proof.
  exact (proj1 (proj2 (assignment_evaluates_then_stores (handle 2)
                         (Sinh (VariableNode (handle 2))) two_leaves
                         (fresh_tape GRADIENT) (or_intror (or_intror eq_refl))))
           eq_refl).
Defined.

(** ** The blocks of the mixed-partials cases *)

Lemma lookup_insert_cell (n a b a' b' : nat) (x : R) (sm : list R) :
  a < n -> b < n -> a' < n -> b' < n -> length sm = n * n ->
  <[a' * n + b' := x]> sm !! (a * n + b)
  = if decide (a = a' /\ b = b') then Some x else sm !! (a * n + b).
Proof.
  intros Ha Hb Ha' Hb' Hlen. case_decide as Hc.
  - destruct Hc as [-> ->]. apply list_lookup_insert_eq.
    rewrite Hlen. by apply cell_lt.
  - apply list_lookup_insert_ne. intros Heq.
    apply cell_inj in Heq; [|done..]. lia.
Qed.

(** The inner loop of [SECOND_ORDER_MIXED_PARTIALS] in row [i]: it writes
    the whole row [i] and, when [i > 0], the rest of column [i]. *)
Lemma SECOND_ORDER_MIXED_inner_spec (exp : Expression) (h : Heap)
    (it : positive) (i : nat) (l : list positive) (e0 : StackEntry.t) :
  i < length l ->
  length (StackEntry.first e0) = length l ->
  length (StackEntry.second_mixed e0) = length l * length l ->
  let r := fold_left (SECOND_ORDER_MIXED_inner exp h it i) l (e0, 0) in
  StackEntry.first r.1 = StackEntry.first e0
  /\ StackEntry.ids r.1 = StackEntry.ids e0
  /\ StackEntry.w r.1 = StackEntry.w e0
  /\ length (StackEntry.second_mixed r.1) = length l * length l
  /\ forall a b : nat,
       a < length l -> b < length l ->
       StackEntry.second_mixed r.1 !! (a * length l + b)
       = if decide (a = i \/ (0 < i /\ b = i))
         then Some (EvaluateDerivative2 exp h (id (h !!! it))
                      (id (h !!! (l !!! (if decide (a = i) then b else a)))))
         else StackEntry.second_mixed e0 !! (a * length l + b).
Proof.
  intros Hi Hfirst Hsm.
  set (P := fun (k : nat) (s : StackEntry.t * nat) =>
       s.2 = k
       /\ StackEntry.first s.1 = StackEntry.first e0
       /\ StackEntry.ids s.1 = StackEntry.ids e0
       /\ StackEntry.w s.1 = StackEntry.w e0
       /\ length (StackEntry.second_mixed s.1) = length l * length l
       /\ forall a b : nat,
            a < length l -> b < length l ->
            StackEntry.second_mixed s.1 !! (a * length l + b)
            = if decide ((a = i /\ b < k) \/ (0 < i /\ b = i /\ a < k /\ a <> i))
              then Some (EvaluateDerivative2 exp h (id (h !!! it))
                           (id (h !!! (l !!! (if decide (a = i) then b else a)))))
              else StackEntry.second_mixed e0 !! (a * length l + b)).
  assert (Hind : P (length l)
                   (fold_left (SECOND_ORDER_MIXED_inner exp h it i) l (e0, 0))).
  { apply (fold_left_ind_all _ l P); unfold P.
    - cbn. repeat split; try done.
      intros a b _ _. case_decide; [lia|done].
    - intros k [e j] Hk (Hj & Hf & Hids & Hw & Hlen & Hcells).
      cbn [fst snd] in *. subst j.
      unfold SECOND_ORDER_MIXED_inner. rewrite Hf, Hfirst.
      cbn [fst snd StackEntry.first StackEntry.ids StackEntry.w
           StackEntry.second_mixed StackEntry.set_second_mixed].
      split; [done|]. split; [done|]. split; [done|]. split; [done|]. split.
      { destruct ((0 <? i) && negb (i =? k)); by rewrite !length_insert. }
      intros a b Ha Hb.
      destruct (Nat.ltb_spec 0 i) as [Hpos|Hpos];
        destruct (Nat.eqb_spec i k) as [Hik|Hik]; cbn [andb negb];
        rewrite ?lookup_insert_cell by (rewrite ?length_insert; done);
        rewrite (Hcells a b Ha Hb);
        repeat case_decide; try done; try lia;
        repeat f_equal; lia. }
  unfold P in Hind. cbn zeta.
  destruct Hind as (_ & Hf & Hids & Hw & Hlen & Hcells).
  repeat split; try done.
  intros a b Ha Hb. rewrite (Hcells a b Ha Hb).
  repeat case_decide; try done; lia.
Qed.

Lemma mixed_row_heap_step (this_info : positive) (index : nat)
    (l : list positive) (h : Heap) (k : nat) :
  k < length l ->
  mark_independent this_info index (l !!! k)
    (fold_left (fun h it => mark_independent this_info index it h)
       (take k l) h)
  = mixed_row_heap this_info index l h k.
Proof.
  intros Hk. unfold mixed_row_heap.
  rewrite (take_S_r l k (l !!! k)) by (by apply list_lookup_lookup_total_lt).
  by rewrite fold_left_app.
Qed.

(** The outer loop of [SECOND_ORDER_MIXED_PARTIALS]: after all rows, [first]
    holds the gradient and every cell [(a, b)] of [second_mixed] holds the
    second partial of its pair of leaves, as evaluated in the later of the
    two rows. *)
Lemma SECOND_ORDER_MIXED_loop_spec (exp : Expression) (this_info : positive)
    (index : nat) (h0 : Heap) (e0 : StackEntry.t) :
  let l := StackEntry.ids e0 in
  let n := length l in
  let H := mixed_row_heap this_info index l h0 in
  length (StackEntry.first e0) = n ->
  length (StackEntry.second_mixed e0) = n * n ->
  let r := fold_left (SECOND_ORDER_MIXED_step exp this_info index) l
             (h0, e0, 0) in
  r.1.1 = fold_left (fun h it => mark_independent this_info index it h) l h0
  /\ StackEntry.ids r.1.2 = l
  /\ StackEntry.w r.1.2 = StackEntry.w e0
  /\ length (StackEntry.first r.1.2) = n
  /\ length (StackEntry.second_mixed r.1.2) = n * n
  /\ (forall i : nat,
        i < n ->
        StackEntry.first r.1.2 !! i
        = Some (EvaluateDerivative exp (H i) (id (H i !!! (l !!! i)))))
  /\ forall a b : nat,
       a < n -> b < n ->
       StackEntry.second_mixed r.1.2 !! (a * n + b)
       = Some (EvaluateDerivative2 exp (H (a `max` b))
                 (id (H (a `max` b) !!! (l !!! (a `max` b))))
                 (id (H (a `max` b) !!! (l !!! (a `min` b))))).
Proof.
  intros l n H Hfirst Hsm.
  set (P := fun (k : nat) (s : Heap * StackEntry.t * nat) =>
       s.2 = k
       /\ s.1.1 = fold_left (fun h it => mark_independent this_info index it h)
                    (take k l) h0
       /\ StackEntry.ids s.1.2 = l
       /\ StackEntry.w s.1.2 = StackEntry.w e0
       /\ length (StackEntry.first s.1.2) = n
       /\ length (StackEntry.second_mixed s.1.2) = n * n
       /\ (forall i : nat,
             i < k ->
             StackEntry.first s.1.2 !! i
             = Some (EvaluateDerivative exp (H i) (id (H i !!! (l !!! i)))))
       /\ forall a b : nat,
            a < k -> b < k ->
            StackEntry.second_mixed s.1.2 !! (a * n + b)
            = Some (EvaluateDerivative2 exp (H (a `max` b))
                      (id (H (a `max` b) !!! (l !!! (a `max` b))))
                      (id (H (a `max` b) !!! (l !!! (a `min` b)))))).
  assert (Hind : P n (fold_left (SECOND_ORDER_MIXED_step exp this_info index) l
                        (h0, e0, 0))).
  { apply (fold_left_ind_all _ l P); unfold P.
    - cbn. repeat split; try done; intros; lia.
    - intros k [[hk ek] c] Hk (Hc & Hh & Hids & Hw & Hf & Hs & Hrow & Hcells).
      cbn [fst snd] in *. subst c hk. unfold n in *.
      unfold SECOND_ORDER_MIXED_step.
      rewrite mixed_row_heap_step by done. fold (H k).
      cbn [StackEntry.ids StackEntry.set_first]. rewrite Hids.
      pose proof (SECOND_ORDER_MIXED_inner_spec exp (H k) (l !!! k) k l
                    (StackEntry.set_first
                       (<[k := EvaluateDerivative exp (H k)
                                 (id (H k !!! (l !!! k)))]>
                          (StackEntry.first ek)) ek) Hk) as Hinner.
      cbn [StackEntry.first StackEntry.second_mixed StackEntry.ids
           StackEntry.w StackEntry.set_first] in Hinner.
      rewrite length_insert in Hinner. specialize (Hinner Hf Hs).
      cbn zeta in Hinner.
      destruct (fold_left (SECOND_ORDER_MIXED_inner exp (H k) (l !!! k) k) l _)
        as [e' j'].
      cbn [fst snd] in Hinner |- *.
      destruct Hinner as (H1 & H2 & H3 & H4 & H5).
      split; [done|]. split.
      { rewrite (take_S_r l k (l !!! k))
          by (by apply list_lookup_lookup_total_lt).
        rewrite fold_left_app. cbn [fold_left].
        by rewrite mixed_row_heap_step. }
      split; [by rewrite H2|]. split; [by rewrite H3|].
      split; [by rewrite H1, length_insert|]. split; [done|]. split.
      + intros i Hi. rewrite H1. destruct (decide (i = k)) as [->|Hne].
        * apply list_lookup_insert_eq. lia.
        * rewrite list_lookup_insert_ne by done. apply Hrow. lia.
      + intros a b Ha Hb.
        rewrite (H5 a b) by lia.
        destruct (decide (a = k \/ 0 < k /\ b = k)) as [Hc|Hc].
        * assert (a `max` b = k) as -> by lia.
          destruct (decide (a = k)) as [->|Ha'].
          -- by rewrite Nat.min_r by lia.
          -- by rewrite Nat.min_l by lia.
        * apply Hcells; lia. }
  unfold P in Hind. cbn zeta.
  destruct Hind as (_ & Hh & Hids & Hw & Hf & Hs & Hrow & Hcells).
  unfold n in Hh. rewrite firstn_all in Hh. repeat split; try done.
Qed.

Lemma Assign_p_SECOND_ORDER_MIXED (this : Variable_) (exp : Expression)
    (h : Heap) (gs : GradientStructure) :
  recording gs = true ->
  derivative_trace_level gs = SECOND_ORDER_MIXED_PARTIALS ->
  let n := length (StackEntry.ids (prepared_entry exp gs)) in
  let e0 := StackEntry.set_second_mixed
              (resize (n * n) 0%R
                 (StackEntry.second_mixed (prepared_entry exp gs)))
              (StackEntry.set_w (Some (info this)) (prepared_entry exp gs)) in
  let r := fold_left
             (SECOND_ORDER_MIXED_step exp (info this) (NextIndex gs).1)
             (StackEntry.ids (prepared_entry exp gs))
             (mixed_start_heap this exp h, e0, 0) in
  let hf := incr_dependence_level (info this) r.1.1 in
  Assign_p this exp h gs
  = Returned (SetValue this (GetValue exp hf) hf)
      (store_entry (NextIndex gs).1 r.1.2 (NextIndex gs).2).
Proof.
  intros Hrec Hlevel. unfold Assign_p, prepared_entry, mixed_start_heap.
  rewrite Hrec. unfold NextIndex; cbn -[resize]. rewrite Hlevel.
  by destruct (fold_left _ _ _) as [[h' e'] k].
Qed.

(** X19: a recording assignment at [SECOND_ORDER_MIXED_PARTIALS] stores a
    record whose [w] is the assigned variable's info, whose [first] holds
    the gradient and whose [second_mixed] is the full [n] by [n] block: for
    [j <= i] the cells [i*n + j] and [j*n + i] both hold the second partial
    in the ids of the [i]-th and [j]-th leaves, evaluated in the heap of row
    [i]. *)
Theorem SECOND_ORDER_MIXED_block_recorded (this : Variable_)
    (exp : Expression) (h : Heap) (gs : GradientStructure) :
  recording gs = true ->
  let o := Assign_p this exp h
             (set_trace_level SECOND_ORDER_MIXED_PARTIALS gs) in
  let l := StackEntry.ids (prepared_entry exp gs) in
  let H := mixed_row_heap (info this) (NextIndex gs).1 l
             (mixed_start_heap this exp h) in
  exists entry : StackEntry.t,
    gradient_stack (outcome_tape o) !! (NextIndex gs).1 = Some entry
    /\ StackEntry.w entry = Some (info this)
    /\ StackEntry.ids entry = l
    /\ length (StackEntry.first entry) = length l
    /\ length (StackEntry.second_mixed entry) = length l * length l
    /\ (forall i : nat,
          i < length l ->
          StackEntry.first entry !! i
          = Some (EvaluateDerivative exp (H i) (id (H i !!! (l !!! i)))))
    /\ forall i j : nat,
         j <= i < length l ->
         let d := EvaluateDerivative2 exp (H i) (id (H i !!! (l !!! i)))
                    (id (H i !!! (l !!! j))) in
         StackEntry.second_mixed entry !! (i * length l + j) = Some d
         /\ StackEntry.second_mixed entry !! (j * length l + i) = Some d.
Proof.
  intros Hrec o l H. subst o.
  destruct (NextIndex_slot gs) as (_ & _ & Hlt).
  rewrite (Assign_p_SECOND_ORDER_MIXED this exp h
             (set_trace_level SECOND_ORDER_MIXED_PARTIALS gs)) by done.
  change (prepared_entry exp (set_trace_level SECOND_ORDER_MIXED_PARTIALS gs))
    with (prepared_entry exp gs).
  change (NextIndex (set_trace_level SECOND_ORDER_MIXED_PARTIALS gs)).1
    with (NextIndex gs).1.
  fold l.
  pose proof (SECOND_ORDER_MIXED_loop_spec exp (info this) (NextIndex gs).1
                (mixed_start_heap this exp h)
                (StackEntry.set_second_mixed
                   (resize (length l * length l) 0%R
                      (StackEntry.second_mixed (prepared_entry exp gs)))
                   (StackEntry.set_w (Some (info this))
                      (prepared_entry exp gs)))) as Hloop.
  cbn [StackEntry.ids StackEntry.first StackEntry.second_mixed StackEntry.w
       StackEntry.set_w StackEntry.set_second_mixed] in Hloop.
  fold l in Hloop. cbn zeta in Hloop. fold H in Hloop.
  specialize (Hloop (prepared_entry_first_length exp gs)
                ltac:(apply length_resize)).
  destruct (fold_left _ _ _) as [[h' e'] k].
  cbn [fst snd] in Hloop.
  destruct Hloop as (_ & Hids & Hw & Hf & Hs & Hrow & Hcells).
  exists e'. split.
  { cbn [outcome_tape store_entry gradient_stack set_gradient_stack fst snd].
    by apply list_lookup_insert_eq. }
  repeat split; try done.
  - rewrite (Hcells i j) by lia.
    by rewrite Nat.max_l, Nat.min_r by lia.
  - rewrite (Hcells j i) by lia.
    by rewrite Nat.max_r, Nat.min_l by lia.
Qed.

Lemma SECOND_ORDER_MIXED_block_recorded_witness :
  exists entry : StackEntry.t,
    gradient_stack
      (outcome_tape
         (Assign_p (handle 1) (Sinh (VariableNode (handle 2))) two_leaves
            (set_trace_level SECOND_ORDER_MIXED_PARTIALS
               (fresh_tape GRADIENT))))
      !! 0 = Some entry
    /\ StackEntry.w entry = Some 1%positive
    /\ StackEntry.ids entry = [2%positive]
    /\ length (StackEntry.second_mixed entry) = 1.
Proof.
  destruct (SECOND_ORDER_MIXED_block_recorded (handle 1)
              (Sinh (VariableNode (handle 2))) two_leaves
              (fresh_tape GRADIENT) eq_refl)
    as (entry & H1 & H2 & H3 & _ & H5 & _).
  exists entry. by repeat split.
Defined.

Lemma cell_lt_gen (m n x c : nat) : x < m -> c < n -> x * n + c < m * n.
Proof.
  intros Hx Hc.
  assert ((x + 1) * n <= m * n) by (apply Nat.mul_le_mono_r; lia). lia.
Qed.

Lemma lookup_insert_cell3 (n a b c a' b' c' : nat) (x : R) (tm : list R) :
  a < n -> b < n -> c < n -> a' < n -> b' < n -> c' < n ->
  length tm = n * n * n ->
  <[a' * n * n + b' * n + c' := x]> tm !! (a * n * n + b * n + c)
  = if decide (a = a' /\ b = b' /\ c = c') then Some x
    else tm !! (a * n * n + b * n + c).
Proof.
  intros Ha Hb Hc Ha' Hb' Hc' Hlen.
  replace (a * n * n + b * n + c) with ((a * n + b) * n + c) by lia.
  replace (a' * n * n + b' * n + c') with ((a' * n + b') * n + c') by lia.
  case_decide as Hd.
  - destruct Hd as (-> & -> & ->). apply list_lookup_insert_eq.
    rewrite Hlen. apply cell_lt_gen; [by apply cell_lt | done].
  - apply list_lookup_insert_ne. intros Heq.
    apply cell_inj in Heq as [Heq ->]; [|done..].
    apply cell_inj in Heq; [|done..]. lia.
Qed.

(** The innermost loop of [THIRD_ORDER_MIXED_PARTIALS] at [(i, j)]: it
    writes the cells [(i, j, c)] of [third_mixed] and nothing else. *)
Lemma THIRD_ORDER_MIXED_innermost_spec (exp : Expression) (h : Heap)
    (it jt : positive) (i j : nat) (l : list positive) (e0 : StackEntry.t) :
  i < length l -> j < length l ->
  length (StackEntry.first e0) = length l ->
  length (StackEntry.third_mixed e0) = length l * length l * length l ->
  let r := fold_left (THIRD_ORDER_MIXED_innermost exp h it jt i j) l (e0, 0) in
  StackEntry.first r.1 = StackEntry.first e0
  /\ StackEntry.ids r.1 = StackEntry.ids e0
  /\ StackEntry.w r.1 = StackEntry.w e0
  /\ StackEntry.second_mixed r.1 = StackEntry.second_mixed e0
  /\ length (StackEntry.third_mixed r.1) = length l * length l * length l
  /\ forall a b c : nat,
       a < length l -> b < length l -> c < length l ->
       StackEntry.third_mixed r.1
         !! (a * length l * length l + b * length l + c)
       = if decide (a = i /\ b = j)
         then Some (EvaluateDerivative3 exp h (id (h !!! it)) (id (h !!! jt))
                      (id (h !!! (l !!! c))))
         else StackEntry.third_mixed e0
                !! (a * length l * length l + b * length l + c).
Proof.
  intros Hi Hj Hfirst Htm.
  set (P := fun (k : nat) (s : StackEntry.t * nat) =>
       s.2 = k
       /\ StackEntry.first s.1 = StackEntry.first e0
       /\ StackEntry.ids s.1 = StackEntry.ids e0
       /\ StackEntry.w s.1 = StackEntry.w e0
       /\ StackEntry.second_mixed s.1 = StackEntry.second_mixed e0
       /\ length (StackEntry.third_mixed s.1)
          = length l * length l * length l
       /\ forall a b c : nat,
            a < length l -> b < length l -> c < length l ->
            StackEntry.third_mixed s.1
              !! (a * length l * length l + b * length l + c)
            = if decide (a = i /\ b = j /\ c < k)
              then Some (EvaluateDerivative3 exp h (id (h !!! it))
                           (id (h !!! jt)) (id (h !!! (l !!! c))))
              else StackEntry.third_mixed e0
                     !! (a * length l * length l + b * length l + c)).
  assert (Hind : P (length l)
                   (fold_left (THIRD_ORDER_MIXED_innermost exp h it jt i j) l
                      (e0, 0))).
  { apply (fold_left_ind_all _ l P); unfold P.
    - cbn. repeat split; try done.
      intros a b c _ _ _. destruct (decide _); [lia|done].
    - intros k [e kk] Hk (Hkk & Hf & Hids & Hw & Hsm & Hlen & Hcells).
      cbn [fst snd] in *. subst kk.
      unfold THIRD_ORDER_MIXED_innermost. rewrite Hf, Hfirst.
      cbn [fst snd StackEntry.first StackEntry.ids StackEntry.w
           StackEntry.second_mixed StackEntry.third_mixed
           StackEntry.set_third_mixed].
      rewrite length_insert. repeat split; try done.
      intros a b c Ha Hb Hc.
      rewrite lookup_insert_cell3 by done.
      rewrite (Hcells a b c Ha Hb Hc).
      destruct (decide (a = i /\ b = j /\ c = k)) as [Hy1|Hn1];
        destruct (decide (a = i /\ b = j /\ c < S k)) as [Hy2|Hn2];
        destruct (decide (a = i /\ b = j /\ c < k)) as [Hy3|Hn3];
        try done; try lia.
      by destruct Hy1 as (-> & -> & ->). }
  unfold P in Hind. cbn zeta.
  destruct Hind as (_ & Hf & Hids & Hw & Hsm & Hlen & Hcells).
  repeat split; try done.
  intros a b c Ha Hb Hc. rewrite (Hcells a b c Ha Hb Hc).
  destruct (decide (a = i /\ b = j /\ c < length l));
    destruct (decide (a = i /\ b = j)); try done; lia.
Qed.

(** The middle loop of [THIRD_ORDER_MIXED_PARTIALS] in row [i]: it writes
    row [i] of [second_mixed] and the slab [i] of [third_mixed]. *)
Lemma THIRD_ORDER_MIXED_inner_spec (exp : Expression) (h : Heap)
    (it : positive) (i : nat) (e0 : StackEntry.t) :
  let l := StackEntry.ids e0 in
  i < length l ->
  length (StackEntry.first e0) = length l ->
  length (StackEntry.second_mixed e0) = length l * length l ->
  length (StackEntry.third_mixed e0) = length l * length l * length l ->
  let r := fold_left (THIRD_ORDER_MIXED_inner exp h it i) l (e0, 0) in
  StackEntry.first r.1 = StackEntry.first e0
  /\ StackEntry.ids r.1 = l
  /\ StackEntry.w r.1 = StackEntry.w e0
  /\ length (StackEntry.second_mixed r.1) = length l * length l
  /\ length (StackEntry.third_mixed r.1) = length l * length l * length l
  /\ (forall a b : nat,
        a < length l -> b < length l ->
        StackEntry.second_mixed r.1 !! (a * length l + b)
        = if decide (a = i)
          then Some (EvaluateDerivative2 exp h (id (h !!! it))
                       (id (h !!! (l !!! b))))
          else StackEntry.second_mixed e0 !! (a * length l + b))
  /\ forall a b c : nat,
       a < length l -> b < length l -> c < length l ->
       StackEntry.third_mixed r.1
         !! (a * length l * length l + b * length l + c)
       = if decide (a = i)
         then Some (EvaluateDerivative3 exp h (id (h !!! it))
                      (id (h !!! (l !!! b))) (id (h !!! (l !!! c))))
         else StackEntry.third_mixed e0
                !! (a * length l * length l + b * length l + c).
Proof.
  intros l Hi Hfirst Hsm Htm.
  set (P := fun (k : nat) (s : StackEntry.t * nat) =>
       s.2 = k
       /\ StackEntry.first s.1 = StackEntry.first e0
       /\ StackEntry.ids s.1 = l
       /\ StackEntry.w s.1 = StackEntry.w e0
       /\ length (StackEntry.second_mixed s.1) = length l * length l
       /\ length (StackEntry.third_mixed s.1)
          = length l * length l * length l
       /\ (forall a b : nat,
             a < length l -> b < length l ->
             StackEntry.second_mixed s.1 !! (a * length l + b)
             = if decide (a = i /\ b < k)
               then Some (EvaluateDerivative2 exp h (id (h !!! it))
                            (id (h !!! (l !!! b))))
               else StackEntry.second_mixed e0 !! (a * length l + b))
       /\ forall a b c : nat,
            a < length l -> b < length l -> c < length l ->
            StackEntry.third_mixed s.1
              !! (a * length l * length l + b * length l + c)
            = if decide (a = i /\ b < k)
              then Some (EvaluateDerivative3 exp h (id (h !!! it))
                           (id (h !!! (l !!! b))) (id (h !!! (l !!! c))))
              else StackEntry.third_mixed e0
                     !! (a * length l * length l + b * length l + c)).
  assert (Hind : P (length l)
                   (fold_left (THIRD_ORDER_MIXED_inner exp h it i) l (e0, 0))).
  { apply (fold_left_ind_all _ l P); unfold P.
    - cbn. repeat split; try done.
      + intros a b _ _. destruct (decide _); [lia|done].
      + intros a b c _ _ _. destruct (decide _); [lia|done].
    - intros k [e jj] Hk (Hjj & Hf & Hids & Hw & Hls & Hlt & Hc2 & Hc3).
      cbn [fst snd] in *. subst jj.
      unfold THIRD_ORDER_MIXED_inner.
      cbn [StackEntry.ids StackEntry.first StackEntry.set_second_mixed].
      rewrite Hids, Hf, Hfirst.
      pose proof (THIRD_ORDER_MIXED_innermost_spec exp h it (l !!! k) i k l
                    (StackEntry.set_second_mixed
                       (<[i * length l + k :=
                            EvaluateDerivative2 exp h (id (h !!! it))
                              (id (h !!! (l !!! k)))]>
                          (StackEntry.second_mixed e)) e) Hi Hk) as Hin.
      cbn [StackEntry.first StackEntry.second_mixed StackEntry.third_mixed
           StackEntry.ids StackEntry.w StackEntry.set_second_mixed] in Hin.
      rewrite Hf in Hin. specialize (Hin Hfirst Hlt). cbn zeta in Hin.
      destruct (fold_left (THIRD_ORDER_MIXED_innermost exp h it (l !!! k) i k)
                  l _) as [e' k'].
      cbn [fst snd] in Hin |- *.
      destruct Hin as (H1 & H2 & H3 & H4 & H5 & H6).
      split; [done|]. split; [by rewrite H1|]. split; [by rewrite H2|].
      split; [by rewrite H3|].
      split; [by rewrite H4, length_insert|]. split; [done|]. split.
      + intros a b Ha Hb. rewrite H4.
        rewrite lookup_insert_cell by done.
        rewrite (Hc2 a b Ha Hb).
        destruct (decide (a = i /\ b = k)) as [Hy1|Hn1];
          destruct (decide (a = i /\ b < S k)) as [Hy2|Hn2];
          destruct (decide (a = i /\ b < k)) as [Hy3|Hn3];
          try done; try lia.
        by destruct Hy1 as [-> ->].
      + intros a b c Ha Hb Hc. rewrite (H6 a b c Ha Hb Hc).
        rewrite (Hc3 a b c Ha Hb Hc).
        destruct (decide (a = i /\ b = k)) as [Hy1|Hn1];
          destruct (decide (a = i /\ b < S k)) as [Hy2|Hn2];
          destruct (decide (a = i /\ b < k)) as [Hy3|Hn3];
          try done; try lia.
        by destruct Hy1 as [-> ->]. }
  unfold P in Hind. cbn zeta.
  destruct Hind as (_ & Hf & Hids & Hw & Hls & Hlt & Hc2 & Hc3).
  repeat split; try done.
  - intros a b Ha Hb. rewrite (Hc2 a b Ha Hb).
    destruct (decide (a = i /\ b < length l));
      destruct (decide (a = i)); try done; lia.
  - intros a b c Ha Hb Hc. rewrite (Hc3 a b c Ha Hb Hc).
    destruct (decide (a = i /\ b < length l));
      destruct (decide (a = i)); try done; lia.
Qed.

(** The outer loop of [THIRD_ORDER_MIXED_PARTIALS]: after all rows the
    record holds the gradient, the full Hessian block and the full third
    order tensor, row [a] evaluated in the heap of row [a]. *)
Lemma THIRD_ORDER_MIXED_loop_spec (exp : Expression) (this_info : positive)
    (index : nat) (h0 : Heap) (e0 : StackEntry.t) :
  let l := StackEntry.ids e0 in
  let n := length l in
  let H := mixed_row_heap this_info index l h0 in
  length (StackEntry.first e0) = n ->
  length (StackEntry.second_mixed e0) = n * n ->
  length (StackEntry.third_mixed e0) = n * n * n ->
  let r := fold_left (THIRD_ORDER_MIXED_step exp this_info index) l
             (h0, e0, 0) in
  r.1.1 = fold_left (fun h it => mark_independent this_info index it h) l h0
  /\ StackEntry.ids r.1.2 = l
  /\ StackEntry.w r.1.2 = StackEntry.w e0
  /\ length (StackEntry.first r.1.2) = n
  /\ length (StackEntry.second_mixed r.1.2) = n * n
  /\ length (StackEntry.third_mixed r.1.2) = n * n * n
  /\ (forall i : nat,
        i < n ->
        StackEntry.first r.1.2 !! i
        = Some (EvaluateDerivative exp (H i) (id (H i !!! (l !!! i)))))
  /\ (forall a b : nat,
        a < n -> b < n ->
        StackEntry.second_mixed r.1.2 !! (a * n + b)
        = Some (EvaluateDerivative2 exp (H a) (id (H a !!! (l !!! a)))
                  (id (H a !!! (l !!! b)))))
  /\ forall a b c : nat,
       a < n -> b < n -> c < n ->
       StackEntry.third_mixed r.1.2 !! (a * n * n + b * n + c)
       = Some (EvaluateDerivative3 exp (H a) (id (H a !!! (l !!! a)))
                 (id (H a !!! (l !!! b))) (id (H a !!! (l !!! c)))).
Proof.
  intros l n H Hfirst Hsm Htm.
  set (P := fun (k : nat) (s : Heap * StackEntry.t * nat) =>
       s.2 = k
       /\ s.1.1 = fold_left (fun h it => mark_independent this_info index it h)
                    (take k l) h0
       /\ StackEntry.ids s.1.2 = l
       /\ StackEntry.w s.1.2 = StackEntry.w e0
       /\ length (StackEntry.first s.1.2) = length l
       /\ length (StackEntry.second_mixed s.1.2) = length l * length l
       /\ length (StackEntry.third_mixed s.1.2)
          = length l * length l * length l
       /\ (forall i : nat,
             i < k ->
             StackEntry.first s.1.2 !! i
             = Some (EvaluateDerivative exp (H i) (id (H i !!! (l !!! i)))))
       /\ (forall a b : nat,
             a < k -> b < length l ->
             StackEntry.second_mixed s.1.2 !! (a * length l + b)
             = Some (EvaluateDerivative2 exp (H a) (id (H a !!! (l !!! a)))
                       (id (H a !!! (l !!! b)))))
       /\ forall a b c : nat,
            a < k -> b < length l -> c < length l ->
            StackEntry.third_mixed s.1.2
              !! (a * length l * length l + b * length l + c)
            = Some (EvaluateDerivative3 exp (H a) (id (H a !!! (l !!! a)))
                      (id (H a !!! (l !!! b))) (id (H a !!! (l !!! c))))).
  assert (Hind : P (length l)
                   (fold_left (THIRD_ORDER_MIXED_step exp this_info index) l
                      (h0, e0, 0))).
  { apply (fold_left_ind_all _ l P); unfold P.
    - cbn. repeat split; try done; intros; lia.
    - intros k [[hk ek] c0] Hk
        (Hc & Hh & Hids & Hw & Hf & Hs & Ht & Hrow & Hc2 & Hc3).
      cbn [fst snd] in *. subst c0 hk.
      unfold THIRD_ORDER_MIXED_step.
      rewrite mixed_row_heap_step by done. fold (H k).
      cbn [StackEntry.ids StackEntry.set_first]. rewrite Hids.
      pose proof (THIRD_ORDER_MIXED_inner_spec exp (H k) (l !!! k) k
                    (StackEntry.set_first
                       (<[k := EvaluateDerivative exp (H k)
                                 (id (H k !!! (l !!! k)))]>
                          (StackEntry.first ek)) ek)) as Hinner.
      cbn [StackEntry.first StackEntry.second_mixed StackEntry.third_mixed
           StackEntry.ids StackEntry.w StackEntry.set_first] in Hinner.
      rewrite Hids, length_insert in Hinner.
      specialize (Hinner Hk Hf Hs Ht). cbn zeta in Hinner.
      destruct (fold_left (THIRD_ORDER_MIXED_inner exp (H k) (l !!! k) k) l _)
        as [e' j'].
      cbn [fst snd] in Hinner |- *.
      destruct Hinner as (H1 & H2 & H3 & H4 & H5 & H6 & H7).
      split; [done|]. split.
      { rewrite (take_S_r l k (l !!! k))
          by (by apply list_lookup_lookup_total_lt).
        rewrite fold_left_app. cbn [fold_left].
        by rewrite mixed_row_heap_step. }
      split; [done|]. split; [by rewrite H3|].
      split; [by rewrite H1, length_insert|].
      split; [done|]. split; [done|]. split; [|split].
      + intros i Hi. rewrite H1. destruct (decide (i = k)) as [->|Hne].
        * apply list_lookup_insert_eq. lia.
        * rewrite list_lookup_insert_ne by done. apply Hrow. lia.
      + intros a b Ha Hb. rewrite (H6 a b) by lia.
        destruct (decide (a = k)) as [->|Hne]; [done|]. apply Hc2; lia.
      + intros a b c Ha Hb Hc. rewrite (H7 a b c) by lia.
        destruct (decide (a = k)) as [->|Hne]; [done|]. apply Hc3; lia. }
  unfold P in Hind. cbn zeta.
  destruct Hind as (_ & Hh & Hids & Hw & Hf & Hs & Ht & Hrow & Hc2 & Hc3).
  rewrite firstn_all in Hh. repeat split; try done.
Qed.

Lemma Assign_p_THIRD_ORDER_MIXED (this : Variable_) (exp : Expression)
    (h : Heap) (gs : GradientStructure) :
  recording gs = true ->
  derivative_trace_level gs = THIRD_ORDER_MIXED_PARTIALS ->
  let n := length (StackEntry.ids (prepared_entry exp gs)) in
  let e0 := StackEntry.set_third_mixed
              (resize (n * n * n) 0%R
                 (StackEntry.third_mixed (prepared_entry exp gs)))
              (StackEntry.set_second_mixed
                 (resize (n * n) 0%R
                    (StackEntry.second_mixed (prepared_entry exp gs)))
                 (StackEntry.set_w (Some (info this))
                    (prepared_entry exp gs))) in
  let r := fold_left
             (THIRD_ORDER_MIXED_step exp (info this) (NextIndex gs).1)
             (StackEntry.ids (prepared_entry exp gs))
             (mixed_start_heap this exp h, e0, 0) in
  Assign_p this exp h gs
  = Returned (SetValue this (GetValue exp r.1.1) r.1.1)
      (store_entry (NextIndex gs).1 r.1.2 (NextIndex gs).2).
Proof.
  intros Hrec Hlevel. unfold Assign_p, prepared_entry, mixed_start_heap.
  rewrite Hrec. unfold NextIndex; cbn -[resize]. rewrite Hlevel.
  by destruct (fold_left _ _ _) as [[h' e'] k].
Qed.

(** X20: a recording assignment at [THIRD_ORDER_MIXED_PARTIALS] stores a
    record with the gradient in [first], the full [n] by [n] block in
    [second_mixed] and the full [n] by [n] by [n] tensor in [third_mixed]:
    the cell [i*n*n + j*n + k] holds the third partial in the ids of the
    [i]-th, [j]-th and [k]-th leaves and the cell [i*n + j] the second
    partial in those of the [i]-th and [j]-th, evaluated in the heap of row
    [i]. *)
Theorem THIRD_ORDER_MIXED_tensor_recorded (this : Variable_)
    (exp : Expression) (h : Heap) (gs : GradientStructure) :
  recording gs = true ->
  let o := Assign_p this exp h
             (set_trace_level THIRD_ORDER_MIXED_PARTIALS gs) in
  let l := StackEntry.ids (prepared_entry exp gs) in
  let n := length l in
  let H := mixed_row_heap (info this) (NextIndex gs).1 l
             (mixed_start_heap this exp h) in
  exists entry : StackEntry.t,
    gradient_stack (outcome_tape o) !! (NextIndex gs).1 = Some entry
    /\ StackEntry.w entry = Some (info this)
    /\ StackEntry.ids entry = l
    /\ length (StackEntry.first entry) = n
    /\ length (StackEntry.second_mixed entry) = n * n
    /\ length (StackEntry.third_mixed entry) = n * n * n
    /\ (forall i : nat,
          i < n ->
          StackEntry.first entry !! i
          = Some (EvaluateDerivative exp (H i) (id (H i !!! (l !!! i)))))
    /\ (forall i j : nat,
          i < n -> j < n ->
          StackEntry.second_mixed entry !! (i * n + j)
          = Some (EvaluateDerivative2 exp (H i) (id (H i !!! (l !!! i)))
                    (id (H i !!! (l !!! j)))))
    /\ forall i j k : nat,
         i < n -> j < n -> k < n ->
         StackEntry.third_mixed entry !! (i * n * n + j * n + k)
         = Some (EvaluateDerivative3 exp (H i) (id (H i !!! (l !!! i)))
                   (id (H i !!! (l !!! j))) (id (H i !!! (l !!! k)))).
Proof.
  intros Hrec o l n H. subst o.
  destruct (NextIndex_slot gs) as (_ & _ & Hlt).
  rewrite (Assign_p_THIRD_ORDER_MIXED this exp h
             (set_trace_level THIRD_ORDER_MIXED_PARTIALS gs)) by done.
  change (prepared_entry exp (set_trace_level THIRD_ORDER_MIXED_PARTIALS gs))
    with (prepared_entry exp gs).
  change (NextIndex (set_trace_level THIRD_ORDER_MIXED_PARTIALS gs)).1
    with (NextIndex gs).1.
  fold l. fold n.
  pose proof (THIRD_ORDER_MIXED_loop_spec exp (info this) (NextIndex gs).1
                (mixed_start_heap this exp h)
                (StackEntry.set_third_mixed
                   (resize (n * n * n) 0%R
                      (StackEntry.third_mixed (prepared_entry exp gs)))
                   (StackEntry.set_second_mixed
                      (resize (n * n) 0%R
                         (StackEntry.second_mixed (prepared_entry exp gs)))
                      (StackEntry.set_w (Some (info this))
                         (prepared_entry exp gs))))) as Hloop.
  cbn [StackEntry.ids StackEntry.first StackEntry.second_mixed
       StackEntry.third_mixed StackEntry.w StackEntry.set_w
       StackEntry.set_second_mixed StackEntry.set_third_mixed] in Hloop.
  fold l in Hloop. cbn zeta in Hloop. fold n in Hloop. fold H in Hloop.
  specialize (Hloop (prepared_entry_first_length exp gs)
                ltac:(apply length_resize) ltac:(apply length_resize)).
  destruct (fold_left _ _ _) as [[h' e'] k].
  cbn [fst snd] in Hloop.
  destruct Hloop as (_ & Hids & Hw & Hf & Hs & Ht & Hrow & Hc2 & Hc3).
  exists e'. split.
  { cbn [outcome_tape store_entry gradient_stack set_gradient_stack fst snd].
    by apply list_lookup_insert_eq. }
  repeat split; try done.
Qed.

Lemma THIRD_ORDER_MIXED_tensor_recorded_witness :
  exists entry : StackEntry.t,
    gradient_stack
      (outcome_tape
         (Assign_p (handle 1) (Sinh (VariableNode (handle 2))) two_leaves
            (set_trace_level THIRD_ORDER_MIXED_PARTIALS
               (fresh_tape GRADIENT))))
      !! 0 = Some entry
    /\ StackEntry.w entry = Some 1%positive
    /\ StackEntry.ids entry = [2%positive]
    /\ length (StackEntry.third_mixed entry) = 1.
Proof.
  destruct (THIRD_ORDER_MIXED_tensor_recorded (handle 1)
              (Sinh (VariableNode (handle 2))) two_leaves
              (fresh_tape GRADIENT) eq_refl)
    as (entry & H1 & H2 & H3 & _ & _ & H6 & _).
  exists entry. by repeat split.
Defined.

(** ** Bookkeeping on the leaves *)

Lemma update_info_field {A : Type} (field : VariableInfo -> A) (q p : positive)
    (f : VariableInfo -> VariableInfo) (h : Heap) :
  (forall x : VariableInfo, field (f x) = field x) ->
  field (update_info q f h !!! p) = field (h !!! p).
Proof.
  intros Hf. destruct (decide (q = p)) as [->|Hne].
  - by rewrite lookup_total_update_info.
  - by rewrite lookup_total_update_info_ne.
Qed.

Lemma SetValue_field {A : Type} (field : VariableInfo -> A) (v : Variable_)
    (value : R) (h : Heap) (p : positive) :
  (forall (x : VariableInfo) (y : R), field (set_vvalue y x) = field x) ->
  field (SetValue v value h !!! p) = field (h !!! p).
Proof.
  intros Hf. destruct (SetValue_shape v value h) as [y ->].
  by apply update_info_field.
Qed.

Lemma mark_independent_dependencies (this_info : positive) (index : nat)
    (it : positive) (h : Heap) :
  dependencies (mark_independent this_info index it h !!! this_info)
  = IDSet_insert it (dependencies (h !!! this_info)).
Proof.
  unfold mark_independent, incr_dependence_level.
  rewrite (update_info_field dependencies) by done.
  match goal with
  | |- context [if ?b then _ else _] => destruct b
  end.
  - rewrite (update_info_field dependencies) by done.
    by rewrite lookup_total_update_info.
  - by rewrite lookup_total_update_info.
Qed.

Lemma IDSet_insert_elem (p q : positive) (s : list positive) :
  q ∈ IDSet_insert p s <-> q = p \/ q ∈ s.
Proof.
  unfold IDSet_insert. case_decide as Hin.
  - split; [by right | intros [->|?]; done].
  - rewrite elem_of_app, list_elem_of_singleton. tauto.
Qed.

Lemma mark_fold_dependencies (this_info : positive) (index : nat)
    (l : list positive) :
  forall (h : Heap) (q : positive),
    q ∈ dependencies
          (fold_left (fun h it => mark_independent this_info index it h) l h
           !!! this_info)
    <-> q ∈ l \/ q ∈ dependencies (h !!! this_info).
Proof.
  induction l as [|x l IH]; intros h q; cbn [fold_left].
  - rewrite elem_of_nil. tauto.
  - rewrite IH, mark_independent_dependencies, IDSet_insert_elem,
      elem_of_cons. tauto.
Qed.

(** X21: after a recording assignment at [SECOND_ORDER_MIXED_PARTIALS] or at
    [THIRD_ORDER_MIXED_PARTIALS], every leaf in the [ids] of the stored
    record is in the [dependencies] of the assigned variable's info. *)
Theorem mixed_partials_dependencies (this : Variable_) (exp : Expression)
    (h : Heap) (gs : GradientStructure) (level : DerivativeTraceLevel)
    (it : positive) :
  recording gs = true ->
  level = SECOND_ORDER_MIXED_PARTIALS \/ level = THIRD_ORDER_MIXED_PARTIALS ->
  it ∈ StackEntry.ids (prepared_entry exp gs) ->
  it ∈ dependencies
         (outcome_heap (Assign_p this exp h (set_trace_level level gs))
          !!! info this).
Proof.
  intros Hrec Hlevel Hit.
  destruct Hlevel as [-> | ->].
  - rewrite (Assign_p_SECOND_ORDER_MIXED this exp h
               (set_trace_level SECOND_ORDER_MIXED_PARTIALS gs)) by done.
    change (prepared_entry exp
              (set_trace_level SECOND_ORDER_MIXED_PARTIALS gs))
      with (prepared_entry exp gs).
    pose proof (SECOND_ORDER_MIXED_loop_spec exp (info this)
                  (NextIndex (set_trace_level SECOND_ORDER_MIXED_PARTIALS gs)).1
                  (mixed_start_heap this exp h)
                  (StackEntry.set_second_mixed
                     (resize
                        (length (StackEntry.ids (prepared_entry exp gs))
                         * length (StackEntry.ids (prepared_entry exp gs)))
                        0%R (StackEntry.second_mixed (prepared_entry exp gs)))
                     (StackEntry.set_w (Some (info this))
                        (prepared_entry exp gs)))) as Hloop.
    cbn [StackEntry.ids StackEntry.first StackEntry.second_mixed StackEntry.w
         StackEntry.set_w StackEntry.set_second_mixed] in Hloop.
    cbn zeta in Hloop.
    specialize (Hloop (prepared_entry_first_length exp gs)
                  ltac:(apply length_resize)).
    destruct (fold_left _ _ _) as [[h' e'] k].
    cbn [fst snd outcome_heap] in Hloop |- *.
    destruct Hloop as (-> & _).
    rewrite (SetValue_field dependencies) by done.
    unfold incr_dependence_level.
    rewrite (update_info_field dependencies) by done.
    apply mark_fold_dependencies. by left.
  - rewrite (Assign_p_THIRD_ORDER_MIXED this exp h
               (set_trace_level THIRD_ORDER_MIXED_PARTIALS gs)) by done.
    change (prepared_entry exp
              (set_trace_level THIRD_ORDER_MIXED_PARTIALS gs))
      with (prepared_entry exp gs).
    pose proof (THIRD_ORDER_MIXED_loop_spec exp (info this)
                  (NextIndex (set_trace_level THIRD_ORDER_MIXED_PARTIALS gs)).1
                  (mixed_start_heap this exp h)
                  (StackEntry.set_third_mixed
                     (resize
                        (length (StackEntry.ids (prepared_entry exp gs))
                         * length (StackEntry.ids (prepared_entry exp gs))
                         * length (StackEntry.ids (prepared_entry exp gs)))
                        0%R (StackEntry.third_mixed (prepared_entry exp gs)))
                     (StackEntry.set_second_mixed
                        (resize
                           (length (StackEntry.ids (prepared_entry exp gs))
                            * length (StackEntry.ids (prepared_entry exp gs)))
                           0%R
                           (StackEntry.second_mixed (prepared_entry exp gs)))
                        (StackEntry.set_w (Some (info this))
                           (prepared_entry exp gs))))) as Hloop.
    cbn [StackEntry.ids StackEntry.first StackEntry.second_mixed
         StackEntry.third_mixed StackEntry.w StackEntry.set_w
         StackEntry.set_second_mixed StackEntry.set_third_mixed] in Hloop.
    cbn zeta in Hloop.
    specialize (Hloop (prepared_entry_first_length exp gs)
                  ltac:(apply length_resize) ltac:(apply length_resize)).
    destruct (fold_left _ _ _) as [[h' e'] k].
    cbn [fst snd outcome_heap] in Hloop |- *.
    destruct Hloop as (-> & _).
    rewrite (SetValue_field dependencies) by done.
    apply mark_fold_dependencies. by left.
Qed.

Lemma mixed_partials_dependencies_witness :
  2%positive
  ∈ dependencies
      (outcome_heap
         (Assign_p (handle 1) (Sinh (VariableNode (handle 2))) two_leaves
            (set_trace_level SECOND_ORDER_MIXED_PARTIALS
               (fresh_tape GRADIENT)))
       !!! 1%positive).
Proof.
  apply (mixed_partials_dependencies (handle 1)
           (Sinh (VariableNode (handle 2))) two_leaves (fresh_tape GRADIENT)
           SECOND_ORDER_MIXED_PARTIALS 2 eq_refl (or_introl eq_refl)).
  cbn. unfold IDSet_insert. cbn. apply list_elem_of_singleton. done.
Defined.

Lemma incr_dependence_level_at (x p : positive) (h : Heap) :
  dependence_level (incr_dependence_level x h !!! p)
  = (dependence_level (h !!! p) + if decide (x = p) then 1 else 0)%Z.
Proof.
  unfold incr_dependence_level. case_decide as Hx.
  - subst x. by rewrite lookup_total_update_info.
  - rewrite lookup_total_update_info_ne by done. lia.
Qed.

Lemma incr_fold_dependence_level (l : list positive) :
  forall (h : Heap) (p : positive),
    NoDup l ->
    dependence_level
      (fold_left (fun h it => incr_dependence_level it h) l h !!! p)
    = (dependence_level (h !!! p) + if decide (p ∈ l) then 1 else 0)%Z.
Proof.
  induction l as [|x l IH]; intros h p Hnd; cbn [fold_left].
  - case_decide as Hin; [by apply elem_of_nil in Hin | lia].
  - apply NoDup_cons in Hnd as [Hx Hnd].
    rewrite (IH _ _ Hnd), incr_dependence_level_at.
    destruct (decide (x = p)) as [->|Hne].
    + rewrite (decide_False (P := p ∈ l)) by done.
      rewrite (decide_True (P := p ∈ p :: l)) by left. lia.
    + destruct (decide (p ∈ l)) as [Hin|Hin].
      * rewrite (decide_True (P := p ∈ x :: l)) by (by right). lia.
      * rewrite (decide_False (P := p ∈ x :: l)); [lia|].
        intros [?|?]%elem_of_cons; done.
Qed.

Lemma Assign_p_DYNAMIC_RECORD (this : Variable_) (exp : Expression)
    (h : Heap) (gs : GradientStructure) :
  recording gs = true ->
  derivative_trace_level gs = DYNAMIC_RECORD ->
  let hf := fold_left (fun h it => incr_dependence_level it h)
              (StackEntry.ids (prepared_entry exp gs)) h in
  Assign_p this exp h gs
  = Returned (SetValue this (GetValue exp hf) hf)
      (store_entry (NextIndex gs).1
         (StackEntry.set_exp (Some exp)
            (StackEntry.set_w (Some (info this)) (prepared_entry exp gs)))
         (NextIndex gs).2).
Proof.
  intros Hrec Hlevel. unfold Assign_p, prepared_entry. rewrite Hrec.
  unfold NextIndex; cbn -[resize]. by rewrite Hlevel.
Qed.

(** X22: a recording assignment at [DYNAMIC_RECORD] stores a record that
    keeps the expression itself and the assigned variable's info, and
    leaves the derivative arrays as the slot had them at the [switch]; when
    the [ids] of the record hold no leaf twice, the [dependence_level] of
    each of them goes up by one and that of every other info stays. *)
Theorem DYNAMIC_RECORD_recorded (this : Variable_) (exp : Expression)
    (h : Heap) (gs : GradientStructure) :
  recording gs = true ->
  let o := Assign_p this exp h (set_trace_level DYNAMIC_RECORD gs) in
  let l := StackEntry.ids (prepared_entry exp gs) in
  (exists entry : StackEntry.t,
     gradient_stack (outcome_tape o) !! (NextIndex gs).1 = Some entry
     /\ StackEntry.w entry = Some (info this)
     /\ StackEntry.ids entry = l
     /\ StackEntry.first entry = StackEntry.first (prepared_entry exp gs)
     /\ StackEntry.second_mixed entry
        = StackEntry.second_mixed (prepared_entry exp gs)
     /\ StackEntry.third_mixed entry
        = StackEntry.third_mixed (prepared_entry exp gs)
     /\ StackEntry.exp entry = Some exp)
  /\ (NoDup l ->
      forall p : positive,
        dependence_level (outcome_heap o !!! p)
        = (dependence_level (h !!! p) + if decide (p ∈ l) then 1 else 0)%Z).
Proof.
  intros Hrec o l. subst o.
  destruct (NextIndex_slot gs) as (_ & _ & Hlt).
  rewrite (Assign_p_DYNAMIC_RECORD this exp h
             (set_trace_level DYNAMIC_RECORD gs)) by done.
  change (prepared_entry exp (set_trace_level DYNAMIC_RECORD gs))
    with (prepared_entry exp gs).
  fold l. split.
  - eexists. split.
    + cbn [outcome_tape store_entry gradient_stack set_gradient_stack].
      by apply list_lookup_insert_eq.
    + by repeat split.
  - intros Hnd p. cbn [outcome_heap].
    rewrite (SetValue_field dependence_level) by done.
    by apply incr_fold_dependence_level.
Qed.

Lemma DYNAMIC_RECORD_recorded_witness :
  dependence_level
    (outcome_heap
       (Assign_p (handle 1) (Sinh (VariableNode (handle 2))) two_leaves
          (set_trace_level DYNAMIC_RECORD (fresh_tape GRADIENT)))
     !!! 2%positive)
  = 1%Z.
Proof.
  pose proof (proj2 (DYNAMIC_RECORD_recorded (handle 1)
                       (Sinh (VariableNode (handle 2))) two_leaves
                       (fresh_tape GRADIENT) eq_refl)) as Hlevel.
  cbn zeta in Hlevel.
  assert (Hl : StackEntry.ids
                 (prepared_entry (Sinh (VariableNode (handle 2)))
                    (fresh_tape GRADIENT)) = [2%positive]) by reflexivity.
  rewrite Hl in Hlevel.
  rewrite (Hlevel ltac:(apply NoDup_singleton) 2%positive).
  rewrite decide_True by (by apply list_elem_of_singleton). reflexivity.
Defined.

Lemma GRADIENT_AND_HESSIAN_inner_w (exp : Expression) (h : Heap)
    (it : positive) (i : nat) (jts : list positive) :
  forall (j : nat) (e : StackEntry.t),
    StackEntry.w (GRADIENT_AND_HESSIAN_inner exp h it i jts j e)
    = StackEntry.w e.
Proof.
  induction jts as [|jt jts IH]; intros j e; [done|].
  cbn [GRADIENT_AND_HESSIAN_inner]. destruct (j =? i); [done|].
  by rewrite IH.
Qed.

(** The outer loop of [GRADIENT_AND_HESSIAN] on [first] and on the heap. *)
Lemma GRADIENT_AND_HESSIAN_first_spec (exp : Expression) (h0 : Heap)
    (e0 : StackEntry.t) :
  let l := StackEntry.ids e0 in
  length (StackEntry.first e0) = length l ->
  length (StackEntry.second_mixed e0) = length l * length l ->
  let r := fold_left (GRADIENT_AND_HESSIAN_step exp) l (h0, e0, 0) in
  r.1.1 = fold_left (fun h it => incr_dependence_level it h) l h0
  /\ StackEntry.w r.1.2 = StackEntry.w e0
  /\ length (StackEntry.first r.1.2) = length l
  /\ forall i : nat,
       i < length l ->
       StackEntry.first r.1.2 !! i
       = Some (EvaluateDerivative exp (row_heap l h0 i)
                 (id (row_heap l h0 i !!! (l !!! i)))).
Proof.
  intros l Hfirst Hsm.
  set (P := fun (k : nat) (s : Heap * StackEntry.t * nat) =>
       s.2 = k
       /\ s.1.1 = fold_left (fun h it => incr_dependence_level it h)
                    (take k l) h0
       /\ StackEntry.ids s.1.2 = l
       /\ StackEntry.w s.1.2 = StackEntry.w e0
       /\ length (StackEntry.first s.1.2) = length l
       /\ length (StackEntry.second_mixed s.1.2) = length l * length l
       /\ forall i : nat,
            i < k ->
            StackEntry.first s.1.2 !! i
            = Some (EvaluateDerivative exp (row_heap l h0 i)
                      (id (row_heap l h0 i !!! (l !!! i))))).
  assert (Hind : P (length l)
                   (fold_left (GRADIENT_AND_HESSIAN_step exp) l (h0, e0, 0))).
  { apply (fold_left_ind_all _ l P); unfold P.
    - cbn. repeat split; try done; intros; lia.
    - intros k [[hk ek] c] Hk (Hc & Hh & Hids & Hw & Hf & Hs & Hrow).
      cbn [fst snd] in *. subst c hk.
      unfold GRADIENT_AND_HESSIAN_step.
      rewrite row_heap_step by done.
      cbn [StackEntry.ids StackEntry.set_first]. rewrite Hids.
      pose proof (GRADIENT_AND_HESSIAN_inner_spec exp (row_heap l h0 k)
                    (l !!! k) k l (k - 0) 0
                    (StackEntry.set_first
                       (<[k := EvaluateDerivative exp (row_heap l h0 k)
                                 (id (row_heap l h0 k !!! (l !!! k)))]>
                          (StackEntry.first ek)) ek)
                    eq_refl ltac:(lia) Hk) as Hinner.
      cbn [StackEntry.first StackEntry.second_mixed StackEntry.ids
           StackEntry.set_first] in Hinner.
      rewrite length_insert, drop_0 in Hinner.
      destruct (Hinner Hf Hs) as (H1 & H2 & H3 & _). clear Hinner.
      cbn [fst snd]. split; [done|]. split.
      { unfold row_heap.
        by rewrite (take_S_r l k (l !!! k))
          by (by apply list_lookup_lookup_total_lt). }
      split; [by rewrite H2|].
      split; [by rewrite GRADIENT_AND_HESSIAN_inner_w|].
      split; [by rewrite H1, length_insert|]. split; [done|].
      intros i Hi. rewrite H1. destruct (decide (i = k)) as [->|Hne].
      + apply list_lookup_insert_eq. lia.
      + rewrite list_lookup_insert_ne by done. apply Hrow. lia. }
  unfold P in Hind. cbn zeta.
  destruct Hind as (_ & Hh & Hids & Hw & Hf & Hs & Hrow).
  rewrite firstn_all in Hh. repeat split; try done.
Qed.

(** X23: a recording assignment at [GRADIENT_AND_HESSIAN] stores a record
    whose [w] is the assigned variable's info and whose [first[i]] is the
    first partial in the id of the [i]-th leaf, evaluated in the heap of row
    [i]; when the [ids] hold no leaf twice, the [dependence_level] of each of
    them goes up by one and that of every other info stays. *)
Theorem GRADIENT_AND_HESSIAN_row_recorded (this : Variable_)
    (exp : Expression) (h : Heap) (gs : GradientStructure) :
  recording gs = true ->
  let o := Assign_p this exp h (set_trace_level GRADIENT_AND_HESSIAN gs) in
  let l := StackEntry.ids (prepared_entry exp gs) in
  (exists entry : StackEntry.t,
     gradient_stack (outcome_tape o) !! (NextIndex gs).1 = Some entry
     /\ StackEntry.w entry = Some (info this)
     /\ length (StackEntry.first entry) = length l
     /\ forall i : nat,
          i < length l ->
          StackEntry.first entry !! i
          = Some (EvaluateDerivative exp (row_heap l h i)
                    (id (row_heap l h i !!! (l !!! i)))))
  /\ (NoDup l ->
      forall p : positive,
        dependence_level (outcome_heap o !!! p)
        = (dependence_level (h !!! p) + if decide (p ∈ l) then 1 else 0)%Z).
Proof.
  intros Hrec o l. subst o.
  destruct (NextIndex_slot gs) as (_ & _ & Hlt).
  rewrite (Assign_p_GRADIENT_AND_HESSIAN this exp h
             (set_trace_level GRADIENT_AND_HESSIAN gs)) by done.
  change (prepared_entry exp (set_trace_level GRADIENT_AND_HESSIAN gs))
    with (prepared_entry exp gs).
  unfold GRADIENT_AND_HESSIAN_case.
  cbn [StackEntry.ids StackEntry.set_w StackEntry.set_second_mixed
       StackEntry.second_mixed]. fold l.
  pose proof (GRADIENT_AND_HESSIAN_first_spec exp h
                (StackEntry.set_second_mixed
                   (resize (length l * length l) 0%R
                      (StackEntry.second_mixed (prepared_entry exp gs)))
                   (StackEntry.set_w (Some (info this))
                      (prepared_entry exp gs)))) as Hloop.
  cbn [StackEntry.ids StackEntry.first StackEntry.second_mixed StackEntry.w
       StackEntry.set_w StackEntry.set_second_mixed] in Hloop.
  fold l in Hloop. cbn zeta in Hloop.
  specialize (Hloop (prepared_entry_first_length exp gs)
                ltac:(apply length_resize)).
  destruct (fold_left _ _ _) as [[h' e'] k].
  cbn [fst snd] in Hloop |- *. destruct Hloop as (-> & Hw & Hf & Hrow).
  split.
  - exists e'. split.
    + cbn [outcome_tape store_entry gradient_stack set_gradient_stack].
      by apply list_lookup_insert_eq.
    + by repeat split.
  - intros Hnd p. cbn [outcome_heap].
    rewrite (SetValue_field dependence_level) by done.
    by apply incr_fold_dependence_level.
Qed.

Lemma GRADIENT_AND_HESSIAN_row_recorded_witness :
  exists entry : StackEntry.t,
    gradient_stack
      (outcome_tape
         (Assign_p (handle 1) (Sinh (VariableNode (handle 2))) two_leaves
            (set_trace_level GRADIENT_AND_HESSIAN (fresh_tape GRADIENT))))
      !! 0 = Some entry
    /\ StackEntry.w entry = Some 1%positive
    /\ length (StackEntry.first entry) = 1.
Proof.
  destruct (proj1 (GRADIENT_AND_HESSIAN_row_recorded (handle 1)
                     (Sinh (VariableNode (handle 2))) two_leaves
                     (fresh_tape GRADIENT) eq_refl))
    as (entry & H1 & H2 & H3 & _).
  exists entry. by repeat split.
Defined.

(** ** The scaled gradient *)




(** ** What an assignment leaves alone on the tape *)

Lemma FIRST_ORDER_loop_hull (exp : Expression) (h : Heap) (l : list positive) :
  forall (gs : GradientStructure) (entry : StackEntry.t) (i : nat),
    let r := fold_left (FIRST_ORDER_step exp h) l (gs, entry, i) in
    recording r.1.1 = recording gs
    /\ derivative_trace_level r.1.1 = derivative_trace_level gs
    /\ (min_id r.1.1 = min_id gs
        \/ exists it : positive, it ∈ l /\ min_id r.1.1 = id (h !!! it))
    /\ (max_id r.1.1 = max_id gs
        \/ exists it : positive, it ∈ l /\ max_id r.1.1 = id (h !!! it)).
Proof.
  induction l as [|x l IH]; intros gs entry i.
  - cbn. repeat split; by left.
  - cbn [fold_left].
    assert (Hstep :
      let s := FIRST_ORDER_step exp h (gs, entry, i) x in
      recording s.1.1 = recording gs
      /\ derivative_trace_level s.1.1 = derivative_trace_level gs
      /\ (min_id s.1.1 = min_id gs \/ min_id s.1.1 = id (h !!! x))
      /\ (max_id s.1.1 = max_id gs \/ max_id s.1.1 = id (h !!! x))).
    { unfold FIRST_ORDER_step; cbn.
      destruct (N.ltb_spec (max_id gs) (id (h !!! x))); cbn;
        destruct (N.ltb_spec (id (h !!! x)) (min_id gs)); cbn; tauto. }
    destruct (FIRST_ORDER_step exp h (gs, entry, i) x) as [[g e] k].
    specialize (IH g e k). cbn [fst snd] in Hstep, IH |- *. cbn zeta in *.
    destruct IH as (IH1 & IH2 & IH3 & IH4).
    destruct Hstep as (H1 & H2 & H3 & H4).
    split; [congruence|]. split; [congruence|]. split.
    + destruct IH3 as [IH3|(it & Hit & IH3)].
      * destruct H3 as [H3|H3]; [left; congruence|].
        right. exists x. split; [left | congruence].
      * right. exists it. split; [by right | done].
    + destruct IH4 as [IH4|(it & Hit & IH4)].
      * destruct H4 as [H4|H4]; [left; congruence|].
        right. exists x. split; [left | congruence].
      * right. exists it. split; [by right | done].
Qed.

(** X25: an assignment never changes the recording flag or the trace level
    of the tape.  At [FIRST_ORDER] it widens the id range no further than
    needed: [min_id] does not grow, [max_id] does not shrink, and each is
    either what it was or the id of a leaf of the record.  In every other
    case, recording or not, [min_id] and [max_id] are left as they were. *)
Theorem assignment_tape_settings (this : Variable_) (exp : Expression)
    (h : Heap) (gs : GradientStructure) :
  let gs' := outcome_tape (Assign_p this exp h gs) in
  let l := StackEntry.ids (prepared_entry exp gs) in
  recording gs' = recording gs
  /\ derivative_trace_level gs' = derivative_trace_level gs
  /\ (recording gs = true /\ derivative_trace_level gs = FIRST_ORDER ->
      (min_id gs' <= min_id gs)%N /\ (max_id gs <= max_id gs')%N
      /\ (min_id gs' = min_id gs
          \/ exists it : positive, it ∈ l /\ min_id gs' = id (h !!! it))
      /\ (max_id gs' = max_id gs
          \/ exists it : positive, it ∈ l /\ max_id gs' = id (h !!! it)))
  /\ (recording gs = false \/ derivative_trace_level gs <> FIRST_ORDER ->
      min_id gs' = min_id gs /\ max_id gs' = max_id gs).
Proof.
  intros gs' l. subst gs'.
  destruct (recording gs) eqn:Hrec.
  2: { unfold Assign_p. rewrite Hrec. cbn.
       repeat split; try done; by left. }
  assert (Hdec : derivative_trace_level gs = FIRST_ORDER
                 \/ derivative_trace_level gs <> FIRST_ORDER)
    by (destruct (derivative_trace_level gs); (by left) || (by right)).
  destruct Hdec as [Hl|Hl].
  - rewrite (Assign_p_FIRST_ORDER this exp h gs Hrec Hl).
    pose proof (FIRST_ORDER_loop_hull exp h l (NextIndex gs).2
                  (StackEntry.set_w (Some (info this)) (prepared_entry exp gs))
                  0) as Hhull.
    pose proof (FIRST_ORDER_loop_range exp h l (NextIndex gs).2
                  (StackEntry.set_w (Some (info this)) (prepared_entry exp gs))
                  0) as Hrange.
    fold l. destruct (fold_left _ _ _) as [[g e] k].
    cbn [fst snd outcome_tape store_entry set_gradient_stack min_id max_id
         recording derivative_trace_level] in Hhull, Hrange |- *.
    cbn zeta in Hhull, Hrange.
    destruct Hhull as (H1 & H2 & H3 & H4). destruct Hrange as (H5 & H6 & _).
    change (recording (NextIndex gs).2) with (recording gs) in H1.
    change (derivative_trace_level (NextIndex gs).2)
      with (derivative_trace_level gs) in H2.
    change (min_id (NextIndex gs).2) with (min_id gs) in H3, H5.
    change (max_id (NextIndex gs).2) with (max_id gs) in H4, H6.
    split; [congruence|]. split; [done|]. split; [|intros [?|?]; done].
    intros _. by repeat split.
  - assert (Hother :
      recording (outcome_tape (Assign_p this exp h gs)) = true
      /\ derivative_trace_level (outcome_tape (Assign_p this exp h gs))
         = derivative_trace_level gs
      /\ min_id (outcome_tape (Assign_p this exp h gs)) = min_id gs
      /\ max_id (outcome_tape (Assign_p this exp h gs)) = max_id gs).
    { unfold Assign_p. rewrite Hrec.
      unfold NextIndex, GRADIENT_AND_HESSIAN_case; cbn -[resize].
      revert Hl.
      destruct (derivative_trace_level gs) eqn:Hlev; intros Hl.
      - done.
      - cbn. by rewrite Hrec, Hlev.
      - cbn. by rewrite Hrec, Hlev.
      - destruct (fold_left _ _ _) as [[h' e'] k']. cbn.
        by rewrite Hrec, Hlev.
      - destruct (fold_left _ _ _) as [[h' e'] k']. cbn.
        by rewrite Hrec, Hlev.
      - destruct (fold_left _ _ _) as [e' k']. cbn. by rewrite Hrec, Hlev.
      - destruct (fold_left _ _ _) as [[h' e'] k']. cbn.
        by rewrite Hrec, Hlev.
      - cbn. by rewrite Hrec, Hlev.
      - cbn. by rewrite Hrec, Hlev. }
    destruct Hother as (H1 & H2 & H3 & H4).
    split; [done|]. split; [done|]. split; [intros [_ ?]; done|].
    by intros _.
Qed.
